(** * The cosmetic interpreter of [app.py]: tokenizer, parser and executor

    A shallow embedding of the command language of [src/app.py]
    ([CosmeticsTokenizer], [CosmeticsParser], [CosmeticsExecutor]) and the
    properties of its specification.

    Text.  A Python [str] is modelled by [string]; each [ascii] stands for
    the code point of the same number, so the development covers the texts
    whose code points are below 256.  On that range [str.lower] and
    [str.strip] act character by character and are written out below as
    CPython defines them. *)

From Stdlib Require Import Ascii String NArith Lia.
From stdpp Require Import base decidable option list sorting strings gmap sets.

Local Open Scope N_scope.

(** ** Characters and strings as Python sees them *)

(** [str.lower] on one code point below 256: the letters [A]-[Z] and the
    Latin-1 capitals U+00C0 to U+00DE (without the multiplication sign
    U+00D7) move up by 32; everything else is left alone. *)
Definition char_lower (c : ascii) : ascii :=
  let n := N_of_ascii c in
  if ((65 <=? n) && (n <=? 90))
     || ((192 <=? n) && (n <=? 222) && negb (n =? 215))
  then ascii_of_N (n + 32)
  else c.

(** [str.isspace] on one code point below 256: TAB to CR, the separators
    U+001C to U+001F, the space, NEL (U+0085) and the no-break space. *)
Definition char_isspace (c : ascii) : bool :=
  let n := N_of_ascii c in
  ((9 <=? n) && (n <=? 13)) || ((28 <=? n) && (n <=? 32))
  || (n =? 133) || (n =? 160).

Definition is_quote (c : ascii) : bool := N_of_ascii c =? 34.

Local Close Scope N_scope.

(** [s.lower()] *)
Fixpoint lower (s : string) : string :=
  match s with
  | EmptyString => EmptyString
  | String c s' => String (char_lower c) (lower s')
  end.

(** [s.lstrip()], [s.rstrip()] and [s.strip()] *)
Fixpoint lstrip (s : string) : string :=
  match s with
  | EmptyString => EmptyString
  | String c s' => if char_isspace c then lstrip s' else s
  end.

Fixpoint rstrip (s : string) : string :=
  match s with
  | EmptyString => EmptyString
  | String c s' =>
      match rstrip s' with
      | EmptyString => if char_isspace c then EmptyString else String c EmptyString
      | r => String c r
      end
  end.

Definition strip (s : string) : string := rstrip (lstrip s).

(** [s[n:]] and [s[:n]] for a natural number [n]; [s[a:b]] *)
Fixpoint str_drop (n : nat) (s : string) : string :=
  match n, s with
  | O, _ => s
  | S n', String _ s' => str_drop n' s'
  | S _, EmptyString => EmptyString
  end.

Fixpoint str_take (n : nat) (s : string) : string :=
  match n, s with
  | S n', String c s' => String c (str_take n' s')
  | _, _ => EmptyString
  end.

Definition slice (a b : nat) (s : string) : string :=
  str_take (b - a) (str_drop a s).

(** [text.startswith(cmd)] *)
Definition startswith (text cmd : string) : bool := String.prefix cmd text.

(** The truth value of a string, of an optional string and of a list:
    [None], the empty string and the empty list are false. *)
Definition str_truthy (s : string) : bool :=
  match s with EmptyString => false | _ => true end.

Definition opt_truthy (o : option string) : bool :=
  match o with None => false | Some s => str_truthy s end.

Definition list_truthy {A : Type} (l : list A) : bool :=
  match l with [] => false | _ => true end.

(** ** Data models and parsing *)

Inductive TokenType : Type := COMMAND | STRING_LITERAL | EOF.

Record Token : Type := mkToken {
  type : TokenType;
  value : string;
  position : nat
}.

Record ASTNode : Type := mkAST {
  command : string;
  arguments : list string
}.

(** The exceptions of the core.  [ParseError] carries what its message is
    built from; [IndexError] is what [args[0]] raises on an empty list. *)
Inductive ParseErrorDetail : Type :=
  | ExpectedCommand
  | UnknownCommandPhrase (cmd : string)
  | WrongArity (cmd : string) (min_a max_a got : nat).

Inductive Exception : Type :=
  | ParseError (d : ParseErrorDetail)
  | ExecutionError (cmd : string)
  | IndexError.

Inductive Result (A : Type) : Type :=
  | Return (a : A)
  | Raise (e : Exception).
Arguments Return {A} a.
Arguments Raise {A} e.

#[global] Instance TokenType_eq_dec : EqDecision TokenType.
Proof. solve_decision. Defined.

#[global] Instance Token_eq_dec : EqDecision Token.
Proof. solve_decision. Defined.

(** ** [sorted(keys, key=len, reverse=True)]

    Python's sort is stable, also with [reverse=True]: keys of equal length
    keep the order they have in the dictionary.  An insertion sort that puts
    a key in front of the first key that is not longer does the same. *)
Fixpoint insert_by_len (x : string) (l : list string) : list string :=
  match l with
  | [] => [x]
  | y :: ys =>
      if Nat.ltb (String.length x) (String.length y)
      then y :: insert_by_len x ys
      else x :: y :: ys
  end.

Fixpoint sorted_by_len_desc (l : list string) : list string :=
  match l with
  | [] => []
  | x :: xs => insert_by_len x (sorted_by_len_desc xs)
  end.

(** ** The tokenizer *)

Module CosmeticsTokenizer.

(** The dictionary [COMMANDS], in insertion order. *)
Definition COMMANDS : list (string * TokenType) :=
  [ ("apply theme", COMMAND);
    ("add item", COMMAND);
    ("remove item", COMMAND);
    ("clear inventory", COMMAND);
    ("add item list", COMMAND);
    ("color palette", COMMAND);
    ("assemble cosmetic", COMMAND);
    ("register", COMMAND);
    ("login", COMMAND);
    ("logout", COMMAND);
    ("exit", COMMAND) ].

Definition keys : list string := map fst COMMANDS.

Record t : Type := mk {
  input : string;
  tokens : list Token;
  position : nat
}.

Definition init (input_text : string) : t :=
  mk (strip input_text) [] 0.

(** The [for] loop of [_match_command] over the sorted phrases: the first
    phrase the text starts with sets [position] and is returned. *)
Fixpoint match_loop (self : t) (text : string) (cmds : list string)
  : option Token * t :=
  match cmds with
  | [] => (None, self)
  | cmd :: rest =>
      if startswith text cmd
      then (Some (mkToken COMMAND cmd 0),
            mk (input self) (tokens self) (String.length cmd))
      else match_loop self text rest
  end.

Definition _match_command (self : t) : option Token * t :=
  let text := lower (input self) in
  match_loop self text (sorted_by_len_desc keys).

(** The inner [while] loop of [_extract_string_literals], which looks for
    the closing quote.  [r] is [text[j:]], so [j < len(text)] is "[r] is
    not empty" and [text[j]] is its first character.  At the end of the text
    the [break] leaves both loops; at a quote the token [emit j] is appended
    and the outer loop [continue_at] goes on from [j + 1]. *)
Definition closing_loop (emit : nat → Token)
    (continue_at : string → nat → list Token)
  : string → nat → list Token :=
  fix closing (r : string) (j : nat) {struct r} : list Token :=
    match r with
    | EmptyString => []
    | String d r' =>
        if is_quote d
        then emit j :: continue_at r' (j + 1)
        else closing r' (j + 1)
    end.

(** The outer [while] loop: [rest] is [text[i:]] and [base] is
    [self.position]. *)
Fixpoint literal_loop (base : nat) (text rest : string) (i : nat)
  : list Token :=
  match rest with
  | EmptyString => []
  | String c rest' =>
      if is_quote c then
        closing_loop
          (λ j, mkToken STRING_LITERAL (slice (i + 1) j text) (base + i))
          (literal_loop base text) rest' (i + 1)
      else literal_loop base text rest' (i + 1)
  end.

Definition _extract_string_literals (self : t) : t :=
  let text := strip (str_drop (position self) (input self)) in
  mk (input self)
     (tokens self ++ literal_loop (position self) text text 0)
     (position self).

Definition tokenize (self : t) : list Token * t :=
  let self := mk (input self) [] 0 in
  let '(cmd, self) := _match_command self in
  let self :=
    match cmd with
    | Some c =>
        _extract_string_literals
          (mk (input self) (tokens self ++ [c]) (position self))
    | None => self
    end in
  let self :=
    mk (input self)
       (tokens self ++ [mkToken EOF "" (position self)])
       (position self) in
  (tokens self, self).

(** [CosmeticsTokenizer(text).tokenize()] *)
Definition run (input_text : string) : list Token :=
  fst (tokenize (init input_text)).

End CosmeticsTokenizer.

(** ** The parser *)

Module CosmeticsParser.

(** The dictionary [COMMAND_RULES]: the bounds on the number of quoted
    arguments of each command. *)
Definition COMMAND_RULES : list (string * (nat * nat)) :=
  [ ("apply theme", (1, 1));
    ("add item", (1, 1));
    ("remove item", (1, 1));
    ("clear inventory", (0, 0));
    ("add item list", (1, 99));
    ("color palette", (1, 99));
    ("assemble cosmetic", (0, 0));
    ("register", (2, 2));
    ("login", (1, 1));
    ("logout", (0, 0));
    ("exit", (0, 0)) ].

(** [COMMAND_RULES[cmd]], and [cmd in COMMAND_RULES] as its being [Some]. *)
Fixpoint rule_of (rules : list (string * (nat * nat))) (cmd : string)
  : option (nat * nat) :=
  match rules with
  | [] => None
  | (k, v) :: rest => if String.eqb k cmd then Some v else rule_of rest cmd
  end.

(** The [while] loop of [parse]: from [self.i] on, the values of the
    tokens are collected as long as they are string literals. *)
Fixpoint collect_args (rest : list Token) : list string :=
  match rest with
  | tok :: rest' =>
      match type tok with
      | STRING_LITERAL => value tok :: collect_args rest'
      | _ => []
      end
  | [] => []
  end.

Definition parse (tokens : list Token) : Result ASTNode :=
  match tokens with
  | [] => Raise (ParseError ExpectedCommand)
  | tok0 :: rest =>
      match type tok0 with
      | COMMAND =>
          let cmd := value tok0 in
          match rule_of COMMAND_RULES cmd with
          | None => Raise (ParseError (UnknownCommandPhrase cmd))
          | Some (min_a, max_a) =>
              let args := collect_args rest in
              if Nat.leb min_a (length args) && Nat.leb (length args) max_a
              then Return (mkAST cmd args)
              else Raise (ParseError (WrongArity cmd min_a max_a (length args)))
          end
      | _ => Raise (ParseError ExpectedCommand)
      end
  end.

End CosmeticsParser.

(** ** Domain models *)

Module CosmeticOutfit.
Record t : Type := mk {
  name : string;
  theme : string;
  items : list string;
  colors : list string;
  image : string;
  steps : list string
}.

#[global] Instance eq_dec : EqDecision t.
Proof. solve_decision. Defined.
End CosmeticOutfit.

Module OutfitMatch.
Record t : Type := mk {
  outfit : CosmeticOutfit.t;
  missing_items : gset string;
  missing_colors : gset string
}.
End OutfitMatch.

(** The messages the executor returns.  Each constructor stands for one
    message template of the source and carries the values the template
    interpolates:
    - [ThemeApplied theme]: Theme applied: theme
    - [ItemAlreadyPresent item]: Item 'item' is already in inventory
    - [ItemAdded item]: Added item: item
    - [ItemNotPresent item]: Item 'item' not in inventory
    - [ItemRemoved item]: Removed item: item
    - [InventoryCleared]: Inventory cleared
    - [ItemsAdded added]: Added (added) items
    - [PaletteSet palette]: Color palette set: (the palette, comma-joined)
    - [NoThemeSet]: Error: No theme set. Use 'apply theme' first.
    - [InventoryEmpty]: Error: Inventory is empty. Add items first.
    - [NoOutfitsForTheme theme]: Error: No outfits available for theme 'theme'
    - [ExactMatches n]: Assembled! Found (n) exact match(es).
    - [NearMatches n]: Assembled partial: (n) near match(es).
    - [NoMatches]: No matches found for current theme and inventory. *)
Inductive Message : Type :=
  | ThemeApplied (theme : string)
  | ItemAlreadyPresent (item : string)
  | ItemAdded (item : string)
  | ItemNotPresent (item : string)
  | ItemRemoved (item : string)
  | InventoryCleared
  | ItemsAdded (added : nat)
  | PaletteSet (palette : list string)
  | NoThemeSet
  | InventoryEmpty
  | NoOutfitsForTheme (theme : string)
  | ExactMatches (n : nat)
  | NearMatches (n : nat)
  | NoMatches.

(** A message that warns ([ItemAlreadyPresent], [ItemNotPresent]). *)
Definition is_warning (m : Message) : bool :=
  match m with
  | ItemAlreadyPresent _ | ItemNotPresent _ => true
  | _ => false
  end.

(** ** The executor *)

Module CosmeticsExecutor.

Record t : Type := mk {
  outfits : list CosmeticOutfit.t;
  image_base_path : string;
  theme : option string;
  inventory : gset string;
  palette : list string
}.

(** [CosmeticsExecutor(cosmetics_library, image_base_path)], the library
    already read into outfit records. *)
Definition init (cosmetics_library : list CosmeticOutfit.t)
    (image_base_path : string) : t :=
  mk cosmetics_library image_base_path None ∅ [].

(** A method of the executor: it reads and writes the object and either
    returns or raises; the object outlives an exception. *)
Definition M (A : Type) : Type := t → Result A * t.

#[global] Instance M_ret : MRet M := λ A a self, (Return a, self).
#[global] Instance M_bind : MBind M := λ A B f c self,
  match c self with
  | (Return a, self') => f a self'
  | (Raise e, self') => (Raise e, self')
  end.

Definition get : M t := λ self, (Return self, self).
Definition raise {A : Type} (e : Exception) : M A := λ self, (Raise e, self).

Definition set_theme (v : option string) : M unit := λ self,
  (Return tt, mk (outfits self) (image_base_path self) v
                 (inventory self) (palette self)).
Definition set_inventory (v : gset string) : M unit := λ self,
  (Return tt, mk (outfits self) (image_base_path self) (theme self)
                 v (palette self)).
Definition set_palette (v : list string) : M unit := λ self,
  (Return tt, mk (outfits self) (image_base_path self) (theme self)
                 (inventory self) v).

(** The truth value of a set: the empty set is false. *)
Definition set_truthy (s : gset string) : bool := negb (bool_decide (s = ∅)).

(** [args[0]] *)
Definition first_arg (args : list string) : M string :=
  match args with
  | [] => raise IndexError
  | a :: _ => mret a
  end.

Definition _apply_theme (theme : string) : M Message :=
  set_theme (Some (lower theme));;
  mret (ThemeApplied theme).

Definition _add_item (item : string) : M Message :=
  let item_l := lower item in
  self ← get;
  if bool_decide (item_l ∈ inventory self)
  then mret (ItemAlreadyPresent item)
  else set_inventory ({[item_l]} ∪ inventory self);;
       mret (ItemAdded item).

Definition _remove_item (item : string) : M Message :=
  let item_l := lower item in
  self ← get;
  if negb (bool_decide (item_l ∈ inventory self))
  then mret (ItemNotPresent item)
  else set_inventory (inventory self ∖ {[item_l]});;
       mret (ItemRemoved item).

Definition _clear_inventory : M Message :=
  set_inventory ∅;;
  mret InventoryCleared.

(** The [for] loop of [_add_item_list], with its counter. *)
Fixpoint add_item_loop (items : list string) (added : nat) : M nat :=
  match items with
  | [] => mret added
  | it :: rest =>
      self ← get;
      if negb (bool_decide (lower it ∈ inventory self))
      then set_inventory ({[lower it]} ∪ inventory self);;
           add_item_loop rest (added + 1)
      else add_item_loop rest added
  end.

Definition _add_item_list (items : list string) : M Message :=
  added ← add_item_loop items 0;
  mret (ItemsAdded added).

Definition _set_color_palette (colors : list string) : M Message :=
  set_palette (map lower colors);;
  self ← get;
  mret (PaletteSet (palette self)).

(** The sets an outfit is judged by: [items_set - inv], and
    [colors_set - pal] unless there is no palette ([pal is None]). *)
Definition items_set (o : CosmeticOutfit.t) : gset string :=
  list_to_set (map lower (CosmeticOutfit.items o)).
Definition colors_set (o : CosmeticOutfit.t) : gset string :=
  list_to_set (map lower (CosmeticOutfit.colors o)).

Definition pal_of (self : t) : option (gset string) :=
  if list_truthy (palette self) then Some (list_to_set (palette self))
  else None.

Definition missing_items_of (inv : gset string) (o : CosmeticOutfit.t)
  : gset string := items_set o ∖ inv.
Definition missing_colors_of (pal : option (gset string))
    (o : CosmeticOutfit.t) : gset string :=
  match pal with
  | None => ∅
  | Some p => colors_set o ∖ p
  end.

(** The [for] loop of [_assemble_cosmetic] over the outfits of the theme,
    appending to [exact] or to [near]. *)
Fixpoint classify_loop (inv : gset string) (pal : option (gset string))
    (theme_outfits : list CosmeticOutfit.t)
    (exact near : list OutfitMatch.t)
  : list OutfitMatch.t * list OutfitMatch.t :=
  match theme_outfits with
  | [] => (exact, near)
  | o :: rest =>
      let missing_items := missing_items_of inv o in
      let missing_colors := missing_colors_of pal o in
      if negb (set_truthy missing_items) && negb (set_truthy missing_colors)
      then classify_loop inv pal rest
             (exact ++ [OutfitMatch.mk o missing_items missing_colors]) near
      else classify_loop inv pal rest
             exact (near ++ [OutfitMatch.mk o missing_items missing_colors])
  end.

(** [[o for o in self.outfits if o.theme.lower() == self.theme]] *)
Definition theme_outfits_of (self : t) : list CosmeticOutfit.t :=
  filter (λ o, Some (lower (CosmeticOutfit.theme o)) = theme self)
         (outfits self).

Definition _assemble_cosmetic : M Message :=
  self ← get;
  if negb (opt_truthy (theme self)) then mret NoThemeSet
  else if negb (set_truthy (inventory self)) then mret InventoryEmpty
  else
    let theme_outfits := theme_outfits_of self in
    if negb (list_truthy theme_outfits)
    then mret (NoOutfitsForTheme (default EmptyString (theme self)))
    else
      let inv := inventory self in
      let pal := pal_of self in
      let '(exact, near) := classify_loop inv pal theme_outfits [] [] in
      if list_truthy exact then mret (ExactMatches (length exact))
      else if list_truthy near then mret (NearMatches (length near))
      else mret NoMatches.

(** The [for] loop of [get_matching_outfits]; each [continue] is a
    recursive call that leaves [matches] as it is. *)
Fixpoint matching_loop (self : t) (inv : gset string)
    (pal : option (gset string)) (os : list CosmeticOutfit.t)
    (matches : list CosmeticOutfit.t) : list CosmeticOutfit.t :=
  match os with
  | [] => matches
  | o :: rest =>
      if negb (bool_decide (Some (lower (CosmeticOutfit.theme o)) = theme self))
      then matching_loop self inv pal rest matches
      else if set_truthy (items_set o ∖ inv)
      then matching_loop self inv pal rest matches
      else if match pal with
              | Some p => set_truthy (colors_set o ∖ p)
              | None => false
              end
      then matching_loop self inv pal rest matches
      else matching_loop self inv pal rest (matches ++ [o])
  end.

Definition get_matching_outfits (self : t) : list CosmeticOutfit.t :=
  if negb (opt_truthy (theme self)) then []
  else matching_loop self (inventory self) (pal_of self) (outfits self) [].

Definition execute (ast : ASTNode) : M Message :=
  let cmd := command ast in
  let args := arguments ast in
  if String.eqb cmd "apply theme" then
    a ← first_arg args; _apply_theme a
  else if String.eqb cmd "add item" then
    a ← first_arg args; _add_item a
  else if String.eqb cmd "remove item" then
    a ← first_arg args; _remove_item a
  else if String.eqb cmd "clear inventory" then _clear_inventory
  else if String.eqb cmd "add item list" then _add_item_list args
  else if String.eqb cmd "color palette" then _set_color_palette args
  else if String.eqb cmd "assemble cosmetic" then _assemble_cosmetic
  else raise (ExecutionError cmd).

(** A session: the commands executed one after the other on the same
    executor, whatever each of them returns or raises. *)
Definition execute_all (asts : list ASTNode) (self : t) : t :=
  fold_left (λ self ast, snd (execute ast self)) asts self.

End CosmeticsExecutor.

(** ** The command runner and the helpers of the interface *)

(** The body of the [try] of the command runner: the line is tokenized,
    parsed and executed on the executor of the session; what is raised on
    the way is caught by the caller, which shows its message. *)
Definition run_command (cmd : string) : CosmeticsExecutor.M Message :=
  let tokens := CosmeticsTokenizer.run cmd in
  match CosmeticsParser.parse tokens with
  | Return ast => CosmeticsExecutor.execute ast
  | Raise e => CosmeticsExecutor.raise e
  end.

(** [palette.split(",")]: the pieces between the commas, one more than
    there are commas. *)
Definition is_comma (c : ascii) : bool := (N_of_ascii c =? 44)%N.

Fixpoint split_comma (s : string) : list string :=
  match s with
  | EmptyString => [EmptyString]
  | String c s' =>
      if is_comma c then EmptyString :: split_comma s'
      else match split_comma s' with
           | piece :: pieces => String c piece :: pieces
           | [] => [String c EmptyString]
           end
  end.

(** [[c.strip() for c in palette.split(",") if c.strip()]], the colours
    the palette field of the interface hands to [_set_color_palette]. *)
Definition palette_colors (palette : string) : list string :=
  map strip
    (filter (λ c, str_truthy (strip c) = true) (split_comma palette)).

(** [executor.inventory = set([x.lower() for x in inv])], the inventory
    read from the store at login. *)
Definition sync_inventory (inv : list string) (self : CosmeticsExecutor.t)
  : CosmeticsExecutor.t :=
  CosmeticsExecutor.mk (CosmeticsExecutor.outfits self)
    (CosmeticsExecutor.image_base_path self) (CosmeticsExecutor.theme self)
    (list_to_set (map lower inv)) (CosmeticsExecutor.palette self).

(** [sorted(list(executor.inventory))], the inventory handed to the store.
    Python orders strings by code point, character by character, a proper
    prefix first; the elements of a set are distinct, so the sorted list
    does not depend on the algorithm. *)
Definition saved_inventory (self : CosmeticsExecutor.t) : list string :=
  merge_sort strings.String.le (elements (CosmeticsExecutor.inventory self)).

(** [s.replace(" ", "_")] *)
Definition is_blank (c : ascii) : bool := (N_of_ascii c =? 32)%N.

Definition underscore : ascii := ascii_of_nat 95.

Fixpoint replace_blanks (s : string) : string :=
  match s with
  | EmptyString => EmptyString
  | String c s' =>
      String (if is_blank c then underscore else c) (replace_blanks s')
  end.

(** [os.path.join] on a POSIX system: a component that starts with a slash
    replaces what comes before it; otherwise it is appended, after a slash
    unless the path so far is empty or ends with one. *)
Definition slash : ascii := ascii_of_nat 47.
Definition is_slash (c : ascii) : bool := (N_of_ascii c =? 47)%N.

Fixpoint ends_with_slash (s : string) : bool :=
  match s with
  | EmptyString => false
  | String c EmptyString => is_slash c
  | String _ s' => ends_with_slash s'
  end.

Definition starts_with_slash (s : string) : bool :=
  match s with
  | String c _ => is_slash c
  | EmptyString => false
  end.

Definition path_join_step (path b : string) : string :=
  if starts_with_slash b then b
  else if negb (str_truthy path) || ends_with_slash path then path +:+ b
  else path +:+ String slash b.

Definition path_join (a : string) (p : list string) : string :=
  fold_left path_join_step p a.

Definition image_path_for (outfit : CosmeticOutfit.t) (base : string)
  : string :=
  let theme_folder := replace_blanks (CosmeticOutfit.theme outfit) in
  path_join base [theme_folder; CosmeticOutfit.image outfit].

(** * The vocabulary of the properties *)

(** A double-quoted argument as it is typed on a command line. *)
Definition dquote : ascii := ascii_of_nat 34.
Definition quoted (s : string) : string :=
  String dquote (s +:+ String dquote EmptyString).

(** A string is stored case-normalized when lower-casing leaves it alone. *)
Definition lowercased (s : string) : Prop := lower s = s.

(** The StringLiteral token of a value and a position. *)
Definition literal_token (l : string * nat) : Token :=
  mkToken STRING_LITERAL l.1 l.2.

(** A method returns, on a given executor, when it raises nothing there. *)
Definition returns {A : Type} (c : CosmeticsExecutor.M A)
    (self : CosmeticsExecutor.t) : Prop :=
  ∃ a self', c self = (Return a, self').

(** The commands the parser accepts and [execute] has no branch for. *)
Definition undispatched : list string :=
  ["register"; "login"; "logout"; "exit"].

(** The commands [execute] has a branch for. *)
Definition dispatched : list string :=
  ["apply theme"; "add item"; "remove item"; "clear inventory";
   "add item list"; "color palette"; "assemble cosmetic"].

(** What the executor stores is case-normalized: the theme if there is one,
    every entry of the inventory, every entry of the palette. *)
Definition stored_normalized (self : CosmeticsExecutor.t) : Prop :=
  (∀ th, CosmeticsExecutor.theme self = Some th → lowercased th)
  ∧ set_Forall lowercased (CosmeticsExecutor.inventory self)
  ∧ Forall lowercased (CosmeticsExecutor.palette self).

(** An outfit is an exact match for the executor when both difference sets
    of [_assemble_cosmetic] are empty. *)
Definition exact_match (self : CosmeticsExecutor.t) (o : CosmeticOutfit.t)
  : Prop :=
  CosmeticsExecutor.missing_items_of (CosmeticsExecutor.inventory self) o = ∅
  ∧ CosmeticsExecutor.missing_colors_of (CosmeticsExecutor.pal_of self) o = ∅.

#[global] Instance exact_match_dec self o : Decision (exact_match self o).
Proof. unfold exact_match. apply _. Defined.

(** The outfits [get_matching_outfits] is specified to show for the theme
    [th]: the theme is [th] up to case, every item is in the inventory up
    to case, and, when there is a palette, every colour is in it up to
    case. *)
Definition displayed (self : CosmeticsExecutor.t) (th : string)
    (o : CosmeticOutfit.t) : Prop :=
  lower (CosmeticOutfit.theme o) = lower th
  ∧ Forall (λ x, lower x ∈ CosmeticsExecutor.inventory self)
           (CosmeticOutfit.items o)
  ∧ (CosmeticsExecutor.palette self ≠ [] →
     Forall (λ c, lower c ∈ CosmeticsExecutor.palette self)
            (CosmeticOutfit.colors o)).

#[global] Instance displayed_dec self th o : Decision (displayed self th o).
Proof. unfold displayed. apply _. Defined.

(** The record [classify_loop] appends for an outfit. *)
Definition match_of (self : CosmeticsExecutor.t) (o : CosmeticOutfit.t)
  : OutfitMatch.t :=
  OutfitMatch.mk o
    (CosmeticsExecutor.missing_items_of (CosmeticsExecutor.inventory self) o)
    (CosmeticsExecutor.missing_colors_of (CosmeticsExecutor.pal_of self) o).

(** The executor of the fourth and fifth scenarios of the specification,
    with a second outfit of the theme that needs a hat. *)
Definition scenario_outfit : CosmeticOutfit.t :=
  CosmeticOutfit.mk "street" "cyberpunk" ["jacket"; "boots"] ["neon blue"]
    "street.png" [].
Definition hat_outfit : CosmeticOutfit.t :=
  CosmeticOutfit.mk "hat" "Cyberpunk" ["jacket"; "hat"] [] "hat.png" [].
Definition scenario_executor : CosmeticsExecutor.t :=
  CosmeticsExecutor.execute_all
    [ mkAST "apply theme" ["cyberpunk"];
      mkAST "add item list" ["jacket"; "boots"];
      mkAST "color palette" ["neon blue"] ]
    (CosmeticsExecutor.init [scenario_outfit; hat_outfit] "cosmetics_images").

(** An executor whose theme is the empty string: [apply theme] was given an
    empty literal, and the catalog has an outfit without a theme. *)
Definition bare_outfit : CosmeticOutfit.t :=
  CosmeticOutfit.mk "bare" "" [] [] "" [].
Definition empty_theme_executor : CosmeticsExecutor.t :=
  CosmeticsExecutor.execute_all
    [ mkAST "apply theme" [""]; mkAST "add item" ["jacket"] ]
    (CosmeticsExecutor.init [bare_outfit] "cosmetics_images").

(** The literals [_extract_string_literals] finds in the trimmed input
    from the position [pos] on. *)
Definition literals_after (pos : nat) (input : string) : list Token :=
  let text := strip (str_drop pos input) in
  CosmeticsTokenizer.literal_loop pos text text 0.

(** Longest first. *)
Definition longer_first (a b : string) : Prop :=
  String.length b ≤ String.length a.

(** Texts without a double quote. *)
Fixpoint quote_free (s : string) : Prop :=
  match s with
  | EmptyString => True
  | String c s' => is_quote c = false ∧ quote_free s'
  end.

(** A text made of complete quoted segments: each pair is the text before
    an opening quote, without a quote in it, and the text between the two
    quotes. *)
Fixpoint render (segs : list (string * string)) : string :=
  match segs with
  | [] => EmptyString
  | (g, v) :: rest => g +:+ quoted v +:+ render rest
  end.

(** The tokens of the segments of a text that starts at offset [i]: the
    text between the quotes, at [base] plus the offset of the opening
    quote. *)
Fixpoint literal_tokens (base i : nat) (segs : list (string * string))
  : list Token :=
  match segs with
  | [] => []
  | (g, v) :: rest =>
      mkToken STRING_LITERAL v (base + (i + String.length g))
      :: literal_tokens base (i + String.length g + String.length v + 2) rest
  end.

(** No quote inside a segment, nor before it. *)
Definition segments_quote_free (segs : list (string * string)) : Prop :=
  Forall (λ gv, quote_free gv.1 ∧ quote_free gv.2) segs.

(** The quoted arguments of a command line, each after one space, and the
    command line of a phrase and its arguments. *)
Fixpoint arguments_text (args : list string) : string :=
  match args with
  | [] => EmptyString
  | a :: rest => " " +:+ quoted a +:+ arguments_text rest
  end.

Definition command_line (cmd : string) (args : list string) : string :=
  cmd +:+ arguments_text args.

(** Texts made of white space only. *)
Fixpoint all_space (s : string) : Prop :=
  match s with
  | EmptyString => True
  | String c s' => char_isspace c = true ∧ all_space s'
  end.

(** A token with its value lower-cased. *)
Definition lower_token (tok : Token) : Token :=
  mkToken (type tok) (lower (value tok)) (position tok).

(** Texts without a comma, without a slash, without a blank. *)
Fixpoint comma_free (s : string) : Prop :=
  match s with
  | EmptyString => True
  | String c s' => is_comma c = false ∧ comma_free s'
  end.

Fixpoint slash_free (s : string) : Prop :=
  match s with
  | EmptyString => True
  | String c s' => is_slash c = false ∧ slash_free s'
  end.

Fixpoint blank_free (s : string) : Prop :=
  match s with
  | EmptyString => True
  | String c s' => is_blank c = false ∧ blank_free s'
  end.

(** A colour as the palette field yields it: not empty, trimmed, without a
    comma. *)
Definition clean_colour (c : string) : Prop :=
  c ≠ EmptyString ∧ strip c = c ∧ comma_free c.

(** Colours written one after the other, a comma and a space between two
    of them, as the hint of the palette field shows. *)
Fixpoint comma_joined (cs : list string) : string :=
  match cs with
  | [] => EmptyString
  | c :: rest =>
      match rest with
      | [] => c
      | _ :: _ => c +:+ ", " +:+ comma_joined rest
      end
  end.

(** * Properties *)

(** Unfolds the monad of the executor's methods down to functions on the
    executor. *)
Ltac unfold_M :=
  unfold mbind, CosmeticsExecutor.M_bind, mret, CosmeticsExecutor.M_ret,
    CosmeticsExecutor.get, CosmeticsExecutor.raise,
    CosmeticsExecutor.set_theme, CosmeticsExecutor.set_inventory,
    CosmeticsExecutor.set_palette.

(** ** The examples of the source *)

Example sorted_keys_value :
  sorted_by_len_desc CosmeticsTokenizer.keys =
  [ "assemble cosmetic"; "clear inventory"; "add item list"; "color palette";
    "apply theme"; "remove item"; "add item"; "register"; "logout"; "login";
    "exit" ].
Proof. reflexivity. Qed.

Example tokenize_apply_theme :
  CosmeticsTokenizer.run ("apply theme " +:+ quoted "cyberpunk") =
  [ mkToken COMMAND "apply theme" 0;
    mkToken STRING_LITERAL "cyberpunk" 11;
    mkToken EOF "" 11 ].
Proof. reflexivity. Qed.

(** ** Lower-casing *)

Lemma char_lower_idemp (c : ascii) : char_lower (char_lower c) = char_lower c.
Proof. destruct c as [[] [] [] [] [] [] [] []]; reflexivity. Qed.

Lemma lower_idemp (s : string) : lower (lower s) = lower s.
Proof.
  induction s as [|c s IH]; simpl; [reflexivity|].
  rewrite char_lower_idemp, IH. reflexivity.
Qed.

Lemma lowercased_lower (s : string) : lowercased (lower s).
Proof. apply lower_idemp. Qed.

(** ** The parser and the arity table *)

Section Parser.
Import CosmeticsParser.

Lemma collect_args_literals (lits : list (string * nat)) (rest : list Token) :
  collect_args (map literal_token lits ++ rest)
  = map fst lits ++ collect_args rest.
Proof.
  induction lits as [|l lits IH]; simpl; [reflexivity|].
  rewrite IH. reflexivity.
Qed.

Lemma collect_args_command_line (lits : list (string * nat))
    (ve : string) (pe : nat) :
  collect_args (map literal_token lits ++ [mkToken EOF ve pe]) = map fst lits.
Proof. rewrite collect_args_literals. simpl. apply app_nil_r. Qed.

(** What a successful parse says about its record. *)
Lemma parse_Return_inv (tokens : list Token) (ast : ASTNode) :
  parse tokens = Return ast →
  ∃ min_a max_a,
    rule_of COMMAND_RULES (command ast) = Some (min_a, max_a)
    ∧ min_a ≤ length (arguments ast) ≤ max_a.
Proof.
  unfold parse. destruct tokens as [|tok0 rest]; [discriminate|].
  destruct (type tok0); try discriminate.
  destruct (rule_of COMMAND_RULES (value tok0)) as [[min_a max_a]|] eqn:Hr;
    [|discriminate].
  destruct (Nat.leb min_a _ && Nat.leb _ max_a) eqn:Hb; [|discriminate].
  intros H. injection H as <-. simpl. exists min_a, max_a.
  split; [exact Hr|].
  apply andb_prop in Hb as [H1 H2].
  apply Nat.leb_le in H1. apply Nat.leb_le in H2. lia.
Qed.

(** The commands of the arity table, with their bounds. *)
Lemma rule_of_Some_inv (cmd : string) (b : nat * nat) :
  rule_of COMMAND_RULES cmd = Some b →
  (cmd, b) ∈ COMMAND_RULES.
Proof.
  unfold COMMAND_RULES. cbn [rule_of].
  repeat (match goal with
          | |- context [String.eqb ?k cmd] =>
              destruct (String.eqb_spec k cmd) as [<-|_];
              [intros [= <-]; set_solver|]
          end).
  discriminate.
Qed.
End Parser.

(** C3: for a command [c] of the arity table with bound [(min_a, max_a)], a
    token sequence made of the Command token of [c], then [k] StringLiteral
    tokens, then an End token parses to the record of [c] with the [k]
    literals in order exactly when [min_a <= k <= max_a], and raises the
    [ParseError] of the arity check exactly when [k] is outside the bound. *)
Theorem parse_arity_bound (c : string) (min_a max_a : nat)
    (lits : list (string * nat)) (p0 : nat) (ve : string) (pe : nat) :
  CosmeticsParser.rule_of CosmeticsParser.COMMAND_RULES c = Some (min_a, max_a) →
  let tokens :=
    mkToken COMMAND c p0 :: map literal_token lits ++ [mkToken EOF ve pe] in
  let k := length lits in
  (min_a ≤ k ≤ max_a
     ↔ CosmeticsParser.parse tokens = Return (mkAST c (map fst lits)))
  ∧ (¬ min_a ≤ k ≤ max_a
     ↔ CosmeticsParser.parse tokens
       = Raise (ParseError (WrongArity c min_a max_a k))).
Proof.
  intros Hrule tokens k. subst tokens k.
  unfold CosmeticsParser.parse. cbn [type value].
  rewrite Hrule, collect_args_command_line, length_map.
  destruct (Nat.leb_spec min_a (length lits)) as [H1|H1];
    destruct (Nat.leb_spec (length lits) max_a) as [H2|H2]; cbn [andb];
    (split; split; intros H; try reflexivity; try discriminate; lia).
Qed.

(** The second scenario of the specification: [register] with one quoted
    argument does not parse, since [register] takes exactly two. *)
Lemma parse_arity_bound_witness :
  CosmeticsParser.rule_of CosmeticsParser.COMMAND_RULES "register" = Some (2, 2)
  ∧ CosmeticsParser.parse
      [ mkToken COMMAND "register" 0;
        mkToken STRING_LITERAL "user@example.com" 8;
        mkToken EOF "" 8 ]
    = Raise (ParseError (WrongArity "register" 2 2 1)).
Proof.
  split; [reflexivity|].
  apply (proj1 (proj2 (parse_arity_bound "register" 2 2
                         [("user@example.com", 8)] 0 "" 8 eq_refl))).
  simpl. lia.
Defined.

(** ** The executor's dispatch *)

Section Dispatch.
Import CosmeticsExecutor.

Lemma add_item_loop_returns (items : list string) (added : nat) (self : t) :
  returns (add_item_loop items added) self.
Proof.
  revert added self. induction items as [|it items IH]; intros added self.
  - eexists _, _. reflexivity.
  - cbn [add_item_loop]. unfold_M. unfold returns.
    destruct (negb _); apply IH.
Qed.

Lemma _apply_theme_returns (a : string) (self : t) :
  returns (_apply_theme a) self.
Proof. eexists _, _. reflexivity. Qed.

Lemma _add_item_returns (a : string) (self : t) :
  returns (_add_item a) self.
Proof.
  unfold returns, _add_item. unfold_M.
  destruct (bool_decide _); eexists _, _; reflexivity.
Qed.

Lemma _remove_item_returns (a : string) (self : t) :
  returns (_remove_item a) self.
Proof.
  unfold returns, _remove_item. unfold_M.
  destruct (negb _); eexists _, _; reflexivity.
Qed.

Lemma _add_item_list_returns (args : list string) (self : t) :
  returns (_add_item_list args) self.
Proof.
  destruct (add_item_loop_returns args 0 self) as (n & self' & H).
  unfold returns, _add_item_list. unfold_M. rewrite H.
  eexists _, _; reflexivity.
Qed.

(** [_assemble_cosmetic] returns a message and leaves the executor as it
    found it, on each of its branches. *)
Lemma assemble_keeps_executor (self : t) :
  ∃ msg, _assemble_cosmetic self = (Return msg, self).
Proof.
  unfold _assemble_cosmetic. unfold_M.
  destruct (negb (opt_truthy _)); [eexists; reflexivity|].
  destruct (negb (set_truthy _)); [eexists; reflexivity|].
  destruct (negb (list_truthy _)); [eexists; reflexivity|].
  destruct (classify_loop _ _ _ _ _) as [exact near].
  destruct (list_truthy exact); [eexists; reflexivity|].
  destruct (list_truthy near); eexists; reflexivity.
Qed.

Lemma execute_validated_cases (cmd : string) (args : list string)
    (min_a max_a : nat) (self : t) :
  (cmd, (min_a, max_a)) ∈ CosmeticsParser.COMMAND_RULES →
  min_a ≤ length args ≤ max_a →
  (cmd ∈ undispatched
     ∧ execute (mkAST cmd args) self = (Raise (ExecutionError cmd), self))
  ∨ (cmd ∈ dispatched ∧ returns (execute (mkAST cmd args)) self).
Proof.
  unfold CosmeticsParser.COMMAND_RULES, undispatched, dispatched.
  intros Hin Hk. rewrite !elem_of_cons, elem_of_nil in Hin.
  repeat (destruct Hin as [Hin|Hin];
          [injection Hin as Hc Hmin Hmax; subst cmd min_a max_a|]);
    try contradiction;
    try (left; split; [rewrite !elem_of_cons; auto 20|reflexivity]);
    right; (split; [rewrite !elem_of_cons; auto 20|]);
    unfold execute; cbn [command arguments String.eqb Ascii.eqb Bool.eqb];
    try (destruct args as [|a rest]; [simpl in Hk; lia|]);
    cbn [first_arg]; unfold_M; fold (@mret M _); fold (@mbind M _).
  - apply _apply_theme_returns.
  - apply _add_item_returns.
  - apply _remove_item_returns.
  - eexists _, _; reflexivity.
  - apply _add_item_list_returns.
  - eexists _, _; reflexivity.
  - destruct (assemble_keeps_executor self) as [msg H].
    eexists _, _; exact H.
Qed.
End Dispatch.

(** C1 (as amended): a record the parser returned is either one of the four
    commands [register], [login], [logout], [exit], which [execute] has no
    branch for, and then [execute] raises [ExecutionError] and leaves the
    executor untouched; or one of the seven dispatched commands, and then
    [execute] returns a message: neither [ExecutionError] nor the
    [IndexError] of [args[0]] can occur. *)
Theorem execute_parsed_command (tokens : list Token) (ast : ASTNode)
    (self : CosmeticsExecutor.t) :
  CosmeticsParser.parse tokens = Return ast →
  (command ast ∈ undispatched
     ∧ CosmeticsExecutor.execute ast self
       = (Raise (ExecutionError (command ast)), self))
  ∨ (command ast ∈ dispatched
     ∧ ∃ msg self', CosmeticsExecutor.execute ast self = (Return msg, self')).
Proof.
  intros Hparse.
  destruct (parse_Return_inv _ _ Hparse) as (min_a & max_a & Hrule & Hk).
  apply rule_of_Some_inv in Hrule. destruct ast as [cmd args].
  exact (execute_validated_cases cmd args min_a max_a self Hrule Hk).
Qed.

(** The line [add item] with the quoted argument [Jacket] is parsed and
    dispatched. *)
Lemma execute_parsed_command_witness :
  CosmeticsParser.parse
    (CosmeticsTokenizer.run ("add item " +:+ quoted "Jacket"))
  = Return (mkAST "add item" ["Jacket"])
  ∧ ((command (mkAST "add item" ["Jacket"]) ∈ undispatched
        ∧ CosmeticsExecutor.execute (mkAST "add item" ["Jacket"])
            (CosmeticsExecutor.init [] "")
          = (Raise (ExecutionError (command (mkAST "add item" ["Jacket"]))),
             CosmeticsExecutor.init [] ""))
     ∨ (command (mkAST "add item" ["Jacket"]) ∈ dispatched
        ∧ ∃ msg self',
            CosmeticsExecutor.execute (mkAST "add item" ["Jacket"])
              (CosmeticsExecutor.init [] "")
            = (Return msg, self'))).
Proof.
  split; [reflexivity|].
  apply (execute_parsed_command
           (CosmeticsTokenizer.run ("add item " +:+ quoted "Jacket"))).
  reflexivity.
Defined.

(** C1 as stated fails: the line [exit] is tokenized and parsed to the
    record of [exit] with no argument, and [execute] raises
    [ExecutionError] on that record. *)
Lemma parsed_exit_raises_ExecutionError :
  CosmeticsParser.parse (CosmeticsTokenizer.run "exit")
  = Return (mkAST "exit" [])
  ∧ CosmeticsExecutor.execute (mkAST "exit" []) (CosmeticsExecutor.init [] "")
    = (Raise (ExecutionError "exit"), CosmeticsExecutor.init [] "").
Proof. split; reflexivity. Qed.

(** C9: executing [assemble cosmetic] returns a message and leaves the
    executor (theme, inventory, palette, and the catalog) as it was, on
    every branch; without a theme, with an empty inventory and with no
    outfit of the theme the message is the one of that soft failure, and
    nothing is raised. *)
Theorem assemble_cosmetic_frame (args : list string)
    (self : CosmeticsExecutor.t) :
  ∃ msg,
    CosmeticsExecutor.execute (mkAST "assemble cosmetic" args) self
    = (Return msg, self)
    ∧ (opt_truthy (CosmeticsExecutor.theme self) = false → msg = NoThemeSet)
    ∧ (opt_truthy (CosmeticsExecutor.theme self) = true →
       CosmeticsExecutor.inventory self = ∅ → msg = InventoryEmpty)
    ∧ (∀ th, CosmeticsExecutor.theme self = Some th → th ≠ EmptyString →
       CosmeticsExecutor.inventory self ≠ ∅ →
       CosmeticsExecutor.theme_outfits_of self = [] →
       msg = NoOutfitsForTheme th).
Proof.
  destruct (assemble_keeps_executor self) as [msg Hmsg].
  exists msg. split; [exact Hmsg|].
  revert Hmsg. unfold CosmeticsExecutor._assemble_cosmetic.
  unfold mbind, CosmeticsExecutor.M_bind, mret, CosmeticsExecutor.M_ret,
    CosmeticsExecutor.get, CosmeticsExecutor.set_truthy.
  intros Hmsg. repeat split.
  - intros Hth. rewrite Hth in Hmsg. cbn in Hmsg. congruence.
  - intros Hth Hinv. rewrite Hth, Hinv in Hmsg.
    rewrite bool_decide_eq_true_2 in Hmsg by reflexivity.
    cbn in Hmsg. congruence.
  - intros th Hth Hne Hinv Hnone. rewrite Hth, Hnone in Hmsg.
    rewrite bool_decide_eq_false_2 in Hmsg by exact Hinv.
    destruct th; [contradiction|]. cbn in Hmsg. congruence.
Qed.

(** ** The inventory and the palette *)

Section Session.
Import CosmeticsExecutor.

(** What [add item] does, by whether the lower-cased item is there. *)
Lemma _add_item_present (item : string) (self : t) :
  lower item ∈ inventory self →
  _add_item item self = (Return (ItemAlreadyPresent item), self).
Proof.
  intros Hin. unfold _add_item. unfold_M.
  rewrite bool_decide_eq_true_2 by exact Hin. reflexivity.
Qed.

Lemma _add_item_absent (item : string) (self : t) :
  lower item ∉ inventory self →
  _add_item item self
  = (Return (ItemAdded item),
     mk (outfits self) (image_base_path self) (theme self)
        ({[lower item]} ∪ inventory self) (palette self)).
Proof.
  intros Hin. unfold _add_item. unfold_M.
  rewrite bool_decide_eq_false_2 by exact Hin. reflexivity.
Qed.

Lemma execute_add_item (item : string) (self : t) :
  execute (mkAST "add item" [item]) self = _add_item item self.
Proof.
  unfold execute. cbn [command arguments String.eqb Ascii.eqb Bool.eqb first_arg].
  unfold mbind, M_bind, mret, M_ret.
  destruct (_add_item item self) as [[msg|e] self']; reflexivity.
Qed.
End Session.

(** C7: [add item] is idempotent up to case.  Whatever the executor holds,
    adding [i] returns and leaves the inventory equal to the former one
    with [lower i] added, one entry more when [lower i] was not there, and
    nothing else changed; adding [i'], any other casing of [i], right after
    returns the warning that the item is already there and leaves the
    executor as it is. *)
Theorem add_item_idempotent (i i' : string) (self : CosmeticsExecutor.t) :
  lower i = lower i' →
  ∃ msg1 self1,
    CosmeticsExecutor.execute (mkAST "add item" [i]) self = (Return msg1, self1)
    ∧ CosmeticsExecutor.inventory self1
      = {[lower i]} ∪ CosmeticsExecutor.inventory self
    ∧ (lower i ∉ CosmeticsExecutor.inventory self →
       size (CosmeticsExecutor.inventory self1)
       = S (size (CosmeticsExecutor.inventory self)))
    ∧ CosmeticsExecutor.theme self1 = CosmeticsExecutor.theme self
    ∧ CosmeticsExecutor.palette self1 = CosmeticsExecutor.palette self
    ∧ CosmeticsExecutor.outfits self1 = CosmeticsExecutor.outfits self
    ∧ CosmeticsExecutor.execute (mkAST "add item" [i']) self1
      = (Return (ItemAlreadyPresent i'), self1)
    ∧ is_warning (ItemAlreadyPresent i') = true.
Proof.
  intros Hcase. rewrite execute_add_item.
  destruct (decide (lower i ∈ CosmeticsExecutor.inventory self)) as [Hin|Hin].
  - rewrite (_add_item_present i self Hin). eexists _, _.
    split; [reflexivity|]. repeat split.
    + symmetry. apply subseteq_union_1_L. set_solver.
    + intros Hnot. contradiction.
    + rewrite execute_add_item. apply _add_item_present. congruence.
  - rewrite (_add_item_absent i self Hin). eexists _, _.
    split; [reflexivity|]. cbn [CosmeticsExecutor.inventory
      CosmeticsExecutor.theme CosmeticsExecutor.palette
      CosmeticsExecutor.outfits]. repeat split.
    + intros _. rewrite size_union by set_solver.
      rewrite size_singleton. reflexivity.
    + rewrite execute_add_item. apply _add_item_present.
      cbn [CosmeticsExecutor.inventory]. rewrite <- Hcase. set_solver.
Qed.

(** The idempotence scenario of the specification: [Jacket], then [jacket],
    on a fresh executor. *)
Lemma add_item_idempotent_witness :
  lower "Jacket" = lower "jacket"
  ∧ ∃ msg1 self1,
      CosmeticsExecutor.execute (mkAST "add item" ["Jacket"])
        (CosmeticsExecutor.init [] "")
      = (Return msg1, self1)
      ∧ CosmeticsExecutor.inventory self1 = {[lower "Jacket"]} ∪ ∅
      ∧ CosmeticsExecutor.execute (mkAST "add item" ["jacket"]) self1
        = (Return (ItemAlreadyPresent "jacket"), self1).
Proof.
  split; [reflexivity|].
  destruct (add_item_idempotent "Jacket" "jacket"
              (CosmeticsExecutor.init [] "") eq_refl)
    as (msg1 & self1 & H1 & H2 & _ & _ & _ & _ & H3 & _).
  exists msg1, self1. repeat split; assumption.
Defined.

Section Normalized.
Import CosmeticsExecutor.

Lemma init_normalized (lib : list CosmeticOutfit.t) (path : string) :
  stored_normalized (init lib path).
Proof.
  split; [|split]; cbn.
  - discriminate.
  - apply set_Forall_empty.
  - constructor.
Qed.

Lemma set_Forall_add_lower (x : string) (s : gset string) :
  set_Forall lowercased s → set_Forall lowercased ({[lower x]} ∪ s).
Proof.
  intros Hs. apply set_Forall_union; [|exact Hs].
  apply set_Forall_singleton, lowercased_lower.
Qed.

Lemma add_item_loop_normalized (items : list string) (added : nat) (self : t) :
  stored_normalized self →
  stored_normalized (snd (add_item_loop items added self)).
Proof.
  revert added self.
  induction items as [|it items IH]; intros added self Hn; [exact Hn|].
  cbn [add_item_loop]. unfold_M.
  destruct (negb _); apply IH; [|exact Hn].
  destruct Hn as (Ht & Hi & Hp). split; [|split]; cbn; try assumption.
  apply set_Forall_add_lower, Hi.
Qed.

Lemma Forall_lowercased_map (l : list string) :
  Forall lowercased (map lower l).
Proof.
  induction l as [|x l IH]; cbn; constructor; [apply lowercased_lower|exact IH].
Qed.

(** Each command keeps what is stored case-normalized, whether it returns
    or raises. *)
Lemma execute_normalized (ast : ASTNode) (self : t) :
  stored_normalized self → stored_normalized (snd (execute ast self)).
Proof.
  intros Hn. pose proof Hn as (Ht & Hi & Hp).
  destruct ast as [cmd args]. unfold execute. cbn [command arguments].
  repeat (match goal with
          | |- context [String.eqb cmd ?k] => destruct (String.eqb cmd k)
          end).
  - destruct args as [|a rest]; [exact Hn|].
    split; [|split]; cbn; try assumption.
    intros th [= <-]. apply lowercased_lower.
  - destruct args as [|a rest]; [exact Hn|].
    cbn [first_arg]. unfold _add_item. unfold_M.
    destruct (bool_decide _); [exact Hn|].
    split; [|split]; cbn; try assumption. apply set_Forall_add_lower, Hi.
  - destruct args as [|a rest]; [exact Hn|].
    cbn [first_arg]. unfold _remove_item. unfold_M.
    destruct (negb _); [exact Hn|].
    split; [|split]; cbn; try assumption.
    intros x Hx. apply Hi. apply elem_of_difference in Hx. tauto.
  - split; [|split]; cbn; try assumption. apply set_Forall_empty.
  - unfold _add_item_list. unfold_M.
    pose proof (add_item_loop_normalized args 0 self Hn) as H.
    destruct (add_item_loop args 0 self) as [[n|e] self']; exact H.
  - split; [|split]; cbn; try assumption. apply Forall_lowercased_map.
  - destruct (assemble_keeps_executor self) as [msg ->]. exact Hn.
  - exact Hn.
Qed.

Lemma execute_all_normalized (asts : list ASTNode) (self : t) :
  stored_normalized self → stored_normalized (execute_all asts self).
Proof.
  revert self. induction asts as [|ast asts IH]; intros self Hn; [exact Hn|].
  cbn. apply IH, execute_normalized, Hn.
Qed.

(** The palette is written by [color palette] and by nothing else. *)
Lemma add_item_loop_palette (items : list string) (added : nat) (self : t) :
  palette (snd (add_item_loop items added self)) = palette self.
Proof.
  revert added self. induction items as [|it items IH]; intros added self;
    [reflexivity|].
  cbn [add_item_loop]. unfold_M.
  destruct (negb _); [|apply IH].
  match goal with |- context [add_item_loop items ?n ?s] =>
    rewrite (IH n s) end.
  reflexivity.
Qed.

Lemma execute_palette (ast : ASTNode) (self : t) :
  palette (snd (execute ast self))
  = if String.eqb (command ast) "color palette"
    then map lower (arguments ast)
    else palette self.
Proof.
  destruct ast as [cmd args]. cbn [command arguments].
  destruct (String.eqb_spec cmd "color palette") as [->|Hne]; [reflexivity|].
  unfold execute. cbn [command arguments].
  repeat (match goal with
          | |- context [String.eqb cmd ?k] =>
              destruct (String.eqb_spec cmd k) as [?|?]
          end); try contradiction.
  - destruct args as [|a rest]; reflexivity.
  - destruct args as [|a rest]; [reflexivity|].
    cbn [first_arg]. unfold _add_item. unfold_M.
    destruct (bool_decide _); reflexivity.
  - destruct args as [|a rest]; [reflexivity|].
    cbn [first_arg]. unfold _remove_item. unfold_M.
    destruct (negb _); reflexivity.
  - reflexivity.
  - unfold _add_item_list. unfold_M.
    pose proof (add_item_loop_palette args 0 self) as Hpal.
    destruct (add_item_loop args 0 self) as [[cnt|exn] self']; exact Hpal.
  - destruct (assemble_keeps_executor self) as [msg ->]. reflexivity.
  - reflexivity.
Qed.

Lemma execute_all_app (asts1 asts2 : list ASTNode) (self : t) :
  execute_all (asts1 ++ asts2) self = execute_all asts2 (execute_all asts1 self).
Proof. unfold execute_all. apply fold_left_app. Qed.

Lemma execute_all_palette_kept (asts : list ASTNode) (self : t) :
  Forall (λ ast, command ast ≠ "color palette") asts →
  palette (execute_all asts self) = palette self.
Proof.
  intros Hall. revert self.
  induction Hall as [|ast asts Hast Hall IH]; intros self; [reflexivity|].
  cbn [execute_all fold_left]. fold (execute_all asts (snd (execute ast self))).
  rewrite IH, execute_palette.
  destruct (String.eqb_spec (command ast) "color palette"); [contradiction|].
  reflexivity.
Qed.

Lemma execute_all_palette_last (before after : list ASTNode)
    (colors : list string) (self : t) :
  Forall (λ ast, command ast ≠ "color palette") after →
  palette (execute_all (before ++ mkAST "color palette" colors :: after) self)
  = map lower colors.
Proof.
  intros Hafter. rewrite execute_all_app.
  cbn [execute_all fold_left].
  fold (execute_all after
          (snd (execute (mkAST "color palette" colors)
                  (execute_all before self)))).
  rewrite (execute_all_palette_kept after _ Hafter), execute_palette.
  reflexivity.
Qed.

(** Lower-cased entries that are equal up to case are equal. *)
Lemma lowercased_distinct_up_to_case (s : gset string) :
  set_Forall lowercased s →
  NoDup (map lower (elements s)).
Proof.
  intros Hs.
  assert (map lower (elements s) = elements s) as ->; [|apply NoDup_elements].
  assert (Forall lowercased (elements s)) as Hall.
  { apply Forall_forall. intros x Hx. apply Hs, elem_of_elements, Hx. }
  induction Hall as [|x l Hx Hl IH]; [reflexivity|].
  cbn [map]. rewrite Hx, IH. reflexivity.
Qed.
End Normalized.

(** C2 (as amended): after any sequence of commands executed on a fresh
    executor, every entry of the inventory and every entry of the palette
    is lower-cased, and the inventory holds no entry twice, not even up to
    case.  The palette is the list of the arguments of the last [color
    palette] command, each lower-cased, in the order given and with the
    repetitions given; it is empty when no such command was executed. *)
Theorem session_entries_normalized (lib : list CosmeticOutfit.t)
    (path : string) (asts : list ASTNode) :
  let self := CosmeticsExecutor.execute_all asts (CosmeticsExecutor.init lib path) in
  (∀ x, x ∈ CosmeticsExecutor.inventory self → lower x = x)
  ∧ (∀ c, c ∈ CosmeticsExecutor.palette self → lower c = c)
  ∧ NoDup (elements (CosmeticsExecutor.inventory self))
  ∧ NoDup (map lower (elements (CosmeticsExecutor.inventory self)))
  ∧ (∀ x y, x ∈ CosmeticsExecutor.inventory self →
            y ∈ CosmeticsExecutor.inventory self →
            lower x = lower y → x = y)
  ∧ (Forall (λ ast, command ast ≠ "color palette") asts →
     CosmeticsExecutor.palette self = [])
  ∧ (∀ before colors after,
       asts = before ++ mkAST "color palette" colors :: after →
       Forall (λ ast, command ast ≠ "color palette") after →
       CosmeticsExecutor.palette self = map lower colors).
Proof.
  intros self.
  destruct (execute_all_normalized asts _ (init_normalized lib path))
    as (_ & Hi & Hp).
  split; [exact Hi|].
  split; [intros c Hc; exact (proj1 (Forall_forall _ _) Hp c Hc)|].
  split; [apply NoDup_elements|].
  split; [apply lowercased_distinct_up_to_case, Hi|].
  split; [intros x y Hx Hy Hxy; rewrite <- (Hi x Hx), <- (Hi y Hy); exact Hxy|].
  split.
  - intros Hnone. unfold self.
    rewrite (execute_all_palette_kept asts _ Hnone). reflexivity.
  - intros before colors after -> Hafter. unfold self.
    apply execute_all_palette_last, Hafter.
Qed.

(** Two palettes in a row, the second with a colour twice and in capitals:
    the second one is what is stored. *)
Example palette_after_two_commands :
  CosmeticsExecutor.palette
    (CosmeticsExecutor.execute_all
       [ mkAST "color palette" ["black"];
         mkAST "add item" ["jacket"];
         mkAST "color palette" ["Neon Blue"; "RED"; "red"];
         mkAST "assemble cosmetic" [] ]
       (CosmeticsExecutor.init [] ""))
  = ["neon blue"; "red"; "red"].
Proof. reflexivity. Qed.

(** C2 as stated fails on the palette: [color palette] with the same colour
    twice stores it twice. *)
Lemma palette_keeps_duplicates :
  CosmeticsParser.parse
    (CosmeticsTokenizer.run
       ("color palette " +:+ quoted "Red" +:+ " " +:+ quoted "red"))
  = Return (mkAST "color palette" ["Red"; "red"])
  ∧ CosmeticsExecutor.palette
      (CosmeticsExecutor.execute_all
         [mkAST "color palette" ["Red"; "red"]]
         (CosmeticsExecutor.init [] ""))
    = ["red"; "red"]
  ∧ ¬ NoDup (CosmeticsExecutor.palette
               (CosmeticsExecutor.execute_all
                  [mkAST "color palette" ["Red"; "red"]]
                  (CosmeticsExecutor.init [] ""))).
Proof.
  split; [reflexivity|]. split; [reflexivity|].
  cbn. intros H. apply NoDup_cons in H as [Hnot _].
  apply Hnot. constructor.
Qed.

(** ** Matching outfits *)

Section Matching.
Import CosmeticsExecutor.

(** A difference [set(x.lower() for x in l) - s] is empty exactly when
    every element of [l], lower-cased, is in [s]. *)
Lemma lower_difference_empty (l : list string) (s : gset string) :
  list_to_set (C := gset string) (map lower l) ∖ s = ∅
  ↔ Forall (λ x, lower x ∈ s) l.
Proof.
  induction l as [|x l IH]; cbn [map list_to_set foldr].
  - split; [constructor|]. intros _. apply empty_difference_L.
  - rewrite Forall_cons, <- IH, difference_union_distr_l_L, empty_union_L.
    apply and_iff_compat_r. split.
    + intros H. destruct (decide (lower x ∈ s)) as [Hx|Hx]; [exact Hx|].
      exfalso. apply (not_elem_of_empty (C := gset string) (lower x)).
      rewrite <- H. apply elem_of_difference. split; [|exact Hx].
      apply elem_of_singleton. reflexivity.
    + intros Hx. apply elem_of_equiv_empty_L. intros y Hy.
      apply elem_of_difference in Hy as [Hy1 Hy2].
      apply elem_of_singleton in Hy1. subst y. contradiction.
Qed.

Lemma set_truthy_false (s : gset string) : set_truthy s = false ↔ s = ∅.
Proof.
  unfold set_truthy. rewrite negb_false_iff. apply bool_decide_eq_true.
Qed.

(** The two lists [classify_loop] builds: the exact matches and the others,
    each in the order of the outfits. *)
Lemma classify_loop_filter (self : t) (os : list CosmeticOutfit.t)
    (exact near : list OutfitMatch.t) :
  classify_loop (inventory self) (pal_of self) os exact near
  = (exact ++ map (match_of self) (filter (exact_match self) os),
     near ++ map (match_of self) (filter (λ o, ¬ exact_match self o) os)).
Proof.
  revert exact near. induction os as [|o os IH]; intros exact near.
  - cbn. rewrite !app_nil_r. reflexivity.
  - cbn [classify_loop].
    destruct (decide (exact_match self o)) as [He|He].
    + rewrite (filter_cons_True _ _ _ He).
      rewrite filter_cons_False by (intros Hn; exact (Hn He)).
      destruct He as [H1 H2]. rewrite H1, H2.
      unfold set_truthy. rewrite bool_decide_eq_true_2 by reflexivity.
      cbn [negb andb]. rewrite IH. cbn [map].
      rewrite <- app_assoc. unfold match_of at 3. rewrite H1, H2. reflexivity.
    + rewrite (filter_cons_False _ _ _ He).
      rewrite (filter_cons_True (λ o, ¬ exact_match self o) _ _ He).
      assert (negb (set_truthy (missing_items_of (inventory self) o))
              && negb (set_truthy (missing_colors_of (pal_of self) o)) = false)
        as ->.
      { apply not_true_is_false. intros Hb. apply He.
        apply andb_prop in Hb as [Hb1 Hb2].
        apply negb_true_iff in Hb1, Hb2.
        split; apply set_truthy_false; assumption. }
      rewrite IH. cbn [map]. rewrite <- app_assoc. reflexivity.
Qed.

Lemma filter_split_length {A : Type} (P : A → Prop) `{∀ x, Decision (P x)}
    (l : list A) :
  length (filter P l) + length (filter (λ x, ¬ P x) l) = length l.
Proof.
  induction l as [|x l IH]; [reflexivity|].
  destruct (decide (P x)) as [Hp|Hp].
  - rewrite (filter_cons_True P _ _ Hp).
    rewrite filter_cons_False by (intros Hn; exact (Hn Hp)).
    cbn. lia.
  - rewrite (filter_cons_False P _ _ Hp).
    rewrite (filter_cons_True (λ x, ¬ P x) _ _ Hp). cbn. lia.
Qed.

(** The message of [_assemble_cosmetic] once its three guards are passed. *)
Lemma assemble_passed_guards (self : t) (th : string) :
  theme self = Some th → th ≠ EmptyString → inventory self ≠ ∅ →
  theme_outfits_of self ≠ [] →
  _assemble_cosmetic self
  = (Return
       (let e := length (filter (exact_match self) (theme_outfits_of self)) in
        let n := length (filter (λ o, ¬ exact_match self o)
                                (theme_outfits_of self)) in
        if Nat.ltb 0 e then ExactMatches e
        else if Nat.ltb 0 n then NearMatches n else NoMatches),
     self).
Proof.
  intros Hth Hne Hinv Hout. unfold _assemble_cosmetic. unfold_M.
  rewrite Hth. destruct th as [|c th]; [contradiction|]. cbn [opt_truthy str_truthy negb].
  unfold set_truthy at 1. rewrite bool_decide_eq_false_2 by exact Hinv.
  cbn [negb]. rewrite <- Hth.
  destruct (theme_outfits_of self) as [|o os] eqn:Hos; [contradiction|].
  cbn [list_truthy negb]. rewrite classify_loop_filter. cbn [app].
  cbv zeta.
  set (ex := filter (exact_match self) (o :: os)).
  set (nr := filter (λ o, ¬ exact_match self o) (o :: os)).
  rewrite <- (length_map (match_of self) ex), <- (length_map (match_of self) nr).
  destruct (map (match_of self) ex) as [|m ms]; cbn [list_truthy length Nat.ltb Nat.leb];
    [|reflexivity].
  destruct (map (match_of self) nr) as [|m ms]; reflexivity.
Qed.
End Matching.

(** C4 (as amended): when the theme is a non-empty string, the inventory is
    not empty and the catalog has an outfit of the theme, [assemble
    cosmetic] reports the number of exact matches whenever there is one,
    the number of near matches only when there is no exact match and some
    near match, and no match otherwise; an outfit of the theme is exact
    when its missing items and its missing colours are both empty, near
    when not, so the two counts add up to the number of outfits of the
    theme; and the executor is left as it was. *)
Theorem assemble_exact_over_near (args : list string)
    (self : CosmeticsExecutor.t) (th : string) :
  CosmeticsExecutor.theme self = Some th → th ≠ EmptyString →
  CosmeticsExecutor.inventory self ≠ ∅ →
  CosmeticsExecutor.theme_outfits_of self ≠ [] →
  let e := length (filter (exact_match self)
                          (CosmeticsExecutor.theme_outfits_of self)) in
  let n := length (filter (λ o, ¬ exact_match self o)
                          (CosmeticsExecutor.theme_outfits_of self)) in
  ∃ msg,
    CosmeticsExecutor.execute (mkAST "assemble cosmetic" args) self
    = (Return msg, self)
    ∧ (0 < e → msg = ExactMatches e)
    ∧ (e = 0 → 0 < n → msg = NearMatches n)
    ∧ (e = 0 → n = 0 → msg = NoMatches)
    ∧ e + n = length (CosmeticsExecutor.theme_outfits_of self).
Proof.
  intros Hth Hne Hinv Hout e n.
  pose proof (assemble_passed_guards self th Hth Hne Hinv Hout) as H.
  cbv zeta in H. fold e n in H.
  eexists. split; [exact H|].
  assert (e + n = length (CosmeticsExecutor.theme_outfits_of self)) as Hsum
    by apply filter_split_length.
  destruct (Nat.ltb_spec 0 e) as [He|He].
  - repeat split; intros; (reflexivity || lia).
  - destruct (Nat.ltb_spec 0 n) as [Hn|Hn];
      repeat split; intros; (reflexivity || lia).
Qed.

(** The tie-break scenario: one exact outfit and one that lacks the hat
    give one exact match, not a near-match count. *)
Lemma assemble_exact_over_near_witness :
  CosmeticsExecutor.theme scenario_executor = Some "cyberpunk"
  ∧ CosmeticsExecutor.theme_outfits_of scenario_executor
    = [scenario_outfit; hat_outfit]
  ∧ CosmeticsExecutor.execute (mkAST "assemble cosmetic" []) scenario_executor
    = (Return (ExactMatches 1), scenario_executor).
Proof.
  split; [reflexivity|]. split; [reflexivity|].
  destruct (assemble_exact_over_near [] scenario_executor "cyberpunk")
    as (msg & Hmsg & He & _).
  - reflexivity.
  - discriminate.
  - vm_compute. discriminate.
  - vm_compute. discriminate.
  - rewrite Hmsg. rewrite He; [reflexivity|]. vm_compute. lia.
Defined.

(** C4 as stated fails when the theme that is set is the empty string: the
    executor has a theme, an item and an outfit of that theme which is an
    exact match, and [assemble cosmetic] answers that no theme is set. *)
Lemma assemble_empty_theme_not_counted :
  CosmeticsParser.parse (CosmeticsTokenizer.run ("apply theme " +:+ quoted ""))
  = Return (mkAST "apply theme" [""])
  ∧ CosmeticsExecutor.theme empty_theme_executor = Some ""
  ∧ CosmeticsExecutor.inventory empty_theme_executor ≠ ∅
  ∧ CosmeticsExecutor.theme_outfits_of empty_theme_executor = [bare_outfit]
  ∧ length (filter (exact_match empty_theme_executor)
                   (CosmeticsExecutor.theme_outfits_of empty_theme_executor))
    = 1
  ∧ CosmeticsExecutor.execute (mkAST "assemble cosmetic" [])
      empty_theme_executor
    = (Return NoThemeSet, empty_theme_executor).
Proof.
  split; [reflexivity|]. split; [reflexivity|].
  split; [vm_compute; discriminate|].
  split; [reflexivity|]. split; reflexivity.
Qed.

Section Display.
Import CosmeticsExecutor.

(** The colour test of [get_matching_outfits]: it lets an outfit through
    when there is no palette, or when no colour is missing from it. *)
Lemma palette_test (self : t) (o : CosmeticOutfit.t) :
  match pal_of self with
  | Some p => set_truthy (colors_set o ∖ p)
  | None => false
  end = false
  ↔ (palette self ≠ [] →
     Forall (λ c, lower c ∈ palette self) (CosmeticOutfit.colors o)).
Proof.
  unfold pal_of. destruct (palette self) as [|c cs] eqn:Hp; cbn [list_truthy].
  - split; [intros _ H; contradiction|reflexivity].
  - rewrite set_truthy_false. unfold colors_set.
    rewrite lower_difference_empty. split.
    + intros H _. eapply Forall_impl; [exact H|].
      intros x Hx. cbn beta in Hx. apply elem_of_list_to_set in Hx. exact Hx.
    + intros H. specialize (H ltac:(discriminate)).
      eapply Forall_impl; [exact H|].
      intros x Hx. cbn beta. apply elem_of_list_to_set. exact Hx.
Qed.

Lemma matching_loop_filter (self : t) (th : string)
    (os matches : list CosmeticOutfit.t) :
  theme self = Some th → lower th = th →
  matching_loop self (inventory self) (pal_of self) os matches
  = matches ++ filter (displayed self th) os.
Proof.
  intros Hth Hlow. revert matches.
  induction os as [|o os IH]; intros matches.
  - cbn. rewrite app_nil_r. reflexivity.
  - cbn [matching_loop]. rewrite Hth.
    destruct (decide (lower (CosmeticOutfit.theme o) = th)) as [Ht|Ht].
    2:{ rewrite bool_decide_eq_false_2 by congruence. cbn [negb].
        rewrite filter_cons_False; [apply IH|].
        intros (H & _). rewrite Hlow in H. contradiction. }
    rewrite bool_decide_eq_true_2 by congruence. cbn [negb].
    destruct (set_truthy (items_set o ∖ inventory self)) eqn:Hitems.
    { rewrite filter_cons_False; [apply IH|].
      intros (_ & H & _). apply lower_difference_empty in H.
      apply set_truthy_false in H. unfold items_set in Hitems. congruence. }
    apply set_truthy_false, lower_difference_empty in Hitems.
    destruct (match pal_of self with
              | Some p => set_truthy (colors_set o ∖ p)
              | None => false
              end) eqn:Hcolors.
    { rewrite filter_cons_False; [apply IH|].
      intros (_ & _ & H). apply (proj2 (palette_test self o)) in H.
      congruence. }
    pose proof (proj1 (palette_test self o) Hcolors) as Hpal.
    rewrite filter_cons_True, IH, <- app_assoc; [reflexivity|].
    split; [congruence|]. split; assumption.
Qed.
End Display.

(** C6 (as amended): when the theme of the executor is a non-empty string,
    stored lower-cased as [apply theme] stores it, [get_matching_outfits]
    returns, in catalog order, exactly the outfits whose theme equals it up
    to case, whose items, lower-cased, are all in the inventory and, only
    when the palette is not empty, whose colours, lower-cased, are all in
    the palette; an empty palette puts no constraint on the colours.
    Without a theme, or with the empty string as theme, it returns the
    empty list. *)
Theorem get_matching_outfits_displayed (self : CosmeticsExecutor.t) :
  (∀ th, CosmeticsExecutor.theme self = Some th → th ≠ EmptyString →
         lower th = th →
         CosmeticsExecutor.get_matching_outfits self
         = filter (displayed self th) (CosmeticsExecutor.outfits self))
  ∧ (CosmeticsExecutor.theme self = None
     ∨ CosmeticsExecutor.theme self = Some EmptyString →
     CosmeticsExecutor.get_matching_outfits self = []).
Proof.
  unfold CosmeticsExecutor.get_matching_outfits. split.
  - intros th Hth Hne Hlow.
    rewrite Hth. destruct th as [|c th]; [contradiction|].
    cbn [opt_truthy str_truthy negb].
    rewrite (matching_loop_filter self (String c th)) by assumption.
    reflexivity.
  - intros [-> | ->]; reflexivity.
Qed.

(** The fourth scenario, with the outfit that needs a hat left out. *)
Lemma get_matching_outfits_displayed_witness :
  CosmeticsExecutor.theme scenario_executor = Some "cyberpunk"
  ∧ lower "cyberpunk" = "cyberpunk"
  ∧ filter (displayed scenario_executor "cyberpunk")
           (CosmeticsExecutor.outfits scenario_executor)
    = [scenario_outfit]
  ∧ CosmeticsExecutor.get_matching_outfits scenario_executor
    = [scenario_outfit].
Proof.
  split; [reflexivity|]. split; [reflexivity|]. split; [reflexivity|].
  rewrite (proj1 (get_matching_outfits_displayed scenario_executor)
             "cyberpunk").
  - reflexivity.
  - reflexivity.
  - discriminate.
  - reflexivity.
Defined.

(** C6 as stated fails when the theme is the empty string: the outfit
    without a theme has the theme of the executor, no item and no colour,
    and [get_matching_outfits] returns nothing. *)
Lemma get_matching_outfits_empty_theme :
  CosmeticsExecutor.theme empty_theme_executor = Some ""
  ∧ filter (displayed empty_theme_executor "")
           (CosmeticsExecutor.outfits empty_theme_executor)
    = [bare_outfit]
  ∧ CosmeticsExecutor.get_matching_outfits empty_theme_executor = [].
Proof. split; [reflexivity|]. split; reflexivity. Qed.

(** The theme of an executor driven by commands is stored lower-cased. *)
Lemma theme_stored_lowercased (lib : list CosmeticOutfit.t) (path : string)
    (asts : list ASTNode) (th : string) :
  CosmeticsExecutor.theme
    (CosmeticsExecutor.execute_all asts (CosmeticsExecutor.init lib path))
  = Some th →
  lower th = th.
Proof.
  intros Hth.
  destruct (execute_all_normalized asts _ (init_normalized lib path))
    as (Ht & _).
  exact (Ht th Hth).
Qed.

(** ** Strings *)

Lemma append_nil_l (s : string) : EmptyString +:+ s = s.
Proof. reflexivity. Qed.

Lemma append_cons (c : ascii) (s t : string) :
  String c s +:+ t = String c (s +:+ t).
Proof. reflexivity. Qed.

Lemma append_nil_r (s : string) : s +:+ EmptyString = s.
Proof.
  induction s as [|c s IH]; [reflexivity|].
  rewrite append_cons, IH. reflexivity.
Qed.

Lemma append_assoc (a b c : string) : (a +:+ b) +:+ c = a +:+ (b +:+ c).
Proof.
  induction a as [|x a IH]; [reflexivity|].
  rewrite !append_cons, IH. reflexivity.
Qed.

Lemma append_length (a b : string) :
  String.length (a +:+ b) = String.length a + String.length b.
Proof.
  induction a as [|x a IH]; [reflexivity|].
  rewrite append_cons. cbn [String.length]. rewrite IH. reflexivity.
Qed.

Lemma str_drop_append (a b : string) : str_drop (String.length a) (a +:+ b) = b.
Proof.
  induction a as [|x a IH]; [reflexivity|].
  rewrite append_cons. cbn [String.length str_drop]. exact IH.
Qed.

Lemma str_take_append (a b : string) : str_take (String.length a) (a +:+ b) = a.
Proof.
  induction a as [|x a IH].
  - destruct b; reflexivity.
  - rewrite append_cons. cbn [String.length str_take]. rewrite IH. reflexivity.
Qed.

(** [text[len(a) : len(a) + len(v)]] is [v] when [text] is [a + v + b]. *)
Lemma slice_middle (a v b : string) (i j : nat) :
  i = String.length a → j = i + String.length v →
  slice i j (a +:+ v +:+ b) = v.
Proof.
  intros -> ->. unfold slice.
  replace (String.length a + String.length v - String.length a)
    with (String.length v) by lia.
  rewrite str_drop_append. apply str_take_append.
Qed.

Lemma startswith_append (text cmd : string) :
  startswith text cmd = true ↔ ∃ r, text = cmd +:+ r.
Proof.
  unfold startswith. revert text.
  induction cmd as [|c cmd IH]; intros text.
  - split; [intros _; exists text; reflexivity|].
    intros _. destruct text; reflexivity.
  - destruct text as [|x text]; cbn [String.prefix].
    + split; [discriminate|]. intros [r Hr]. rewrite append_cons in Hr.
      discriminate.
    + destruct (ascii_dec c x) as [->|Hne].
      * rewrite IH. split; intros [r Hr]; exists r.
        -- rewrite append_cons, Hr. reflexivity.
        -- rewrite append_cons in Hr. congruence.
      * split; [discriminate|]. intros [r Hr]. rewrite append_cons in Hr.
        congruence.
Qed.

Lemma is_quote_dquote : is_quote dquote = true.
Proof. reflexivity. Qed.

(** Stripping a text whose first and last characters are not spaces. *)
Lemma rstrip_append (a b : string) :
  rstrip (a +:+ b)
  = match rstrip b with
    | EmptyString => rstrip a
    | String c r => a +:+ String c r
    end.
Proof.
  induction a as [|x a IH];
    [rewrite append_nil_l; destruct (rstrip b); reflexivity|].
  rewrite append_cons. cbn [rstrip]. rewrite IH.
  destruct (rstrip b) as [|c r]; [reflexivity|].
  rewrite append_cons.
  destruct a as [|y a]; reflexivity.
Qed.

Lemma rstrip_keeps_head (a b : string) :
  rstrip a = a → rstrip (a +:+ b) = a +:+ rstrip b.
Proof.
  intros Ha. rewrite rstrip_append.
  destruct (rstrip b); [rewrite append_nil_r; exact Ha|reflexivity].
Qed.

(** ** The sorted vocabulary *)

Lemma insert_by_len_elem (x y : string) (l : list string) :
  y ∈ insert_by_len x l ↔ y = x ∨ y ∈ l.
Proof.
  induction l as [|z l IH]; cbn [insert_by_len].
  - rewrite list_elem_of_singleton, elem_of_nil. tauto.
  - destruct (Nat.ltb _ _); rewrite !elem_of_cons; [rewrite IH|]; tauto.
Qed.

Lemma sorted_by_len_desc_elem (y : string) (l : list string) :
  y ∈ sorted_by_len_desc l ↔ y ∈ l.
Proof.
  induction l as [|x l IH]; cbn [sorted_by_len_desc]; [tauto|].
  rewrite insert_by_len_elem, elem_of_cons, IH. tauto.
Qed.

Lemma insert_by_len_sorted (x : string) (l : list string) :
  StronglySorted longer_first l → StronglySorted longer_first (insert_by_len x l).
Proof.
  induction 1 as [|z l Hs IH Hz]; cbn [insert_by_len].
  - repeat constructor.
  - destruct (Nat.ltb_spec (String.length x) (String.length z)) as [Hlt|Hge].
    + constructor; [exact IH|].
      apply Forall_forall. intros y Hy. apply insert_by_len_elem in Hy.
      destruct Hy as [->|Hy]; [unfold longer_first; lia|].
      exact (proj1 (Forall_forall _ _) Hz y Hy).
    + constructor; [constructor; assumption|].
      constructor; [exact Hge|].
      eapply Forall_impl; [exact Hz|]. unfold longer_first. intros; cbn in *; lia.
Qed.

Lemma sorted_by_len_desc_sorted (l : list string) :
  StronglySorted longer_first (sorted_by_len_desc l).
Proof.
  induction l as [|x l IH]; cbn [sorted_by_len_desc]; [constructor|].
  apply insert_by_len_sorted, IH.
Qed.

(** ** The tokenizer *)

Section Tokenizer.
Import CosmeticsTokenizer.

(** The phrase [match_loop] returns is the first of the list the text
    starts with. *)
Lemma match_loop_first (self : t) (text : string) (cmds : list string) :
  (Forall (λ c, startswith text c = false) cmds
   ∧ match_loop self text cmds = (None, self))
  ∨ ∃ before cmd after,
      cmds = before ++ cmd :: after
      ∧ Forall (λ c, startswith text c = false) before
      ∧ startswith text cmd = true
      ∧ match_loop self text cmds
        = (Some (mkToken COMMAND cmd 0),
           mk (input self) (tokens self) (String.length cmd)).
Proof.
  induction cmds as [|c cmds IH]; cbn [match_loop].
  - left. split; [constructor|reflexivity].
  - destruct (startswith text c) eqn:Hc.
    + right. exists [], c, cmds. repeat split; [constructor|exact Hc].
    + destruct IH as [[Hall Hnone]|(before & cmd & after & -> & Hb & Hm & Hr)].
      * left. split; [constructor; assumption|exact Hnone].
      * right. exists (c :: before), cmd, after.
        repeat split; [constructor; assumption|exact Hm|exact Hr].
Qed.

(** With the phrases sorted longest first, it is a longest one. *)
Lemma match_loop_longest (self : t) (text : string) (cmds : list string)
    (tok : Token) (self' : t) :
  StronglySorted longer_first cmds →
  match_loop self text cmds = (Some tok, self') →
  tok = mkToken COMMAND (value tok) 0
  ∧ self' = mk (input self) (tokens self) (String.length (value tok))
  ∧ value tok ∈ cmds
  ∧ startswith text (value tok) = true
  ∧ ∀ c, c ∈ cmds → startswith text c = true →
         String.length c ≤ String.length (value tok).
Proof.
  intros Hsorted Hloop.
  destruct (match_loop_first self text cmds)
    as [[_ Hnone]|(before & cmd & after & -> & Hb & Hm & Hr)]; [congruence|].
  rewrite Hr in Hloop. injection Hloop as <- <-. cbn [value].
  repeat split; try assumption.
  - apply elem_of_app. right. constructor.
  - intros c Hc Hstart. apply elem_of_app in Hc as [Hc|Hc].
    + pose proof (proj1 (Forall_forall _ _) Hb c Hc) as Hno. cbn beta in Hno.
      congruence.
    + apply StronglySorted_app_1_r in Hsorted.
      apply StronglySorted_inv in Hsorted as [_ Hall].
      apply elem_of_cons in Hc as [->|Hc]; [lia|].
      exact (proj1 (Forall_forall _ _) Hall c Hc).
Qed.

(** Every token the literal loops append is a string literal. *)
Lemma closing_loop_literals (emit : nat → Token)
    (continue_at : string → nat → list Token) (n : nat) :
  (∀ j, type (emit j) = STRING_LITERAL) →
  (∀ r j, String.length r < n →
          Forall (λ tok, type tok = STRING_LITERAL) (continue_at r j)) →
  ∀ r j, String.length r ≤ n →
         Forall (λ tok, type tok = STRING_LITERAL)
                (closing_loop emit continue_at r j).
Proof.
  intros Hemit Hcont. induction r as [|d r IH]; intros j Hlen; [constructor|].
  cbn [closing_loop String.length] in *. destruct (is_quote d).
  - constructor; [apply Hemit|]. apply Hcont. lia.
  - apply IH. lia.
Qed.

Lemma literal_loop_literals (base : nat) (text rest : string) (i : nat) :
  Forall (λ tok, type tok = STRING_LITERAL) (literal_loop base text rest i).
Proof.
  remember (String.length rest) as n eqn:Hn.
  assert (String.length rest ≤ n) as Hle by lia. clear Hn.
  revert rest i Hle. induction n as [|n IH]; intros rest i Hle.
  - destruct rest; [constructor|cbn in Hle; lia].
  - destruct rest as [|c rest]; [constructor|].
    cbn [literal_loop String.length] in *. destruct (is_quote c).
    + apply (closing_loop_literals _ _ n); [reflexivity| |lia].
      intros r j Hr. apply IH. lia.
    + apply IH. lia.
Qed.

(** [tokenize], one case per outcome of [_match_command]. *)
Lemma run_unfold (text : string) :
  run text
  = match match_loop (mk (strip text) [] 0) (lower (strip text))
            (sorted_by_len_desc keys) with
    | (Some tok, self) =>
        let rem := strip (str_drop (position self) (input self)) in
        tok :: literal_loop (position self) rem rem 0
            ++ [mkToken EOF "" (position self)]
    | (None, self) => [mkToken EOF "" (position self)]
    end.
Proof.
  unfold run, tokenize, init, _match_command. cbn [input].
  destruct (match_loop_first (mk (strip text) [] 0) (lower (strip text))
              (sorted_by_len_desc keys))
    as [[_ ->]|(before & cmd & after & _ & _ & _ & ->)]; reflexivity.
Qed.
End Tokenizer.

(** The outcome of [tokenize] when some phrase is a prefix of the trimmed,
    lower-cased text, and when none is. *)
Lemma run_command_found (text c : string) :
  c ∈ CosmeticsTokenizer.keys → startswith (lower (strip text)) c = true →
  ∃ cmd,
    CosmeticsTokenizer.run text
    = mkToken COMMAND cmd 0
      :: literals_after (String.length cmd) (strip text)
      ++ [mkToken EOF "" (String.length cmd)]
    ∧ cmd ∈ CosmeticsTokenizer.keys
    ∧ startswith (lower (strip text)) cmd = true
    ∧ (∀ c', c' ∈ CosmeticsTokenizer.keys →
             startswith (lower (strip text)) c' = true →
             String.length c' ≤ String.length cmd).
Proof.
  intros Hc Hstart. rewrite run_unfold.
  destruct (CosmeticsTokenizer.match_loop _ (lower (strip text)) _)
    as [[tok|] self] eqn:Hloop.
  - apply match_loop_longest in Hloop
      as (Htok & -> & Hin & Hm & Hlong);
      [|apply sorted_by_len_desc_sorted].
    exists (value tok). unfold literals_after.
    cbv zeta. cbn [CosmeticsTokenizer.position CosmeticsTokenizer.input].
    rewrite <- Htok. split; [reflexivity|].
    split; [apply sorted_by_len_desc_elem, Hin|].
    split; [exact Hm|].
    intros c' Hc'. apply Hlong, sorted_by_len_desc_elem, Hc'.
  - destruct (match_loop_first (CosmeticsTokenizer.mk (strip text) [] 0)
                (lower (strip text))
                (sorted_by_len_desc CosmeticsTokenizer.keys))
      as [[Hall _]|(before & cmd & after & _ & _ & _ & Hr)];
      [|congruence].
    apply sorted_by_len_desc_elem in Hc.
    pose proof (proj1 (Forall_forall _ _) Hall c Hc) as Hno.
    cbn beta in Hno. congruence.
Qed.

Lemma run_no_command (text : string) :
  (∀ c, c ∈ CosmeticsTokenizer.keys →
        startswith (lower (strip text)) c = false) →
  CosmeticsTokenizer.run text = [mkToken EOF "" 0].
Proof.
  intros Hno. rewrite run_unfold.
  destruct (match_loop_first (CosmeticsTokenizer.mk (strip text) [] 0)
              (lower (strip text))
              (sorted_by_len_desc CosmeticsTokenizer.keys))
    as [[_ ->]|(before & cmd & after & Heq & _ & Hm & _)]; [reflexivity|].
  assert (cmd ∈ CosmeticsTokenizer.keys) as Hin.
  { apply sorted_by_len_desc_elem. rewrite Heq.
    apply elem_of_app. right. constructor. }
  rewrite (Hno cmd Hin) in Hm. discriminate.
Qed.

Lemma keys_elem (c : string) :
  c ∈ CosmeticsTokenizer.keys
  ↔ c = "apply theme" ∨ c = "add item" ∨ c = "remove item"
    ∨ c = "clear inventory" ∨ c = "add item list" ∨ c = "color palette"
    ∨ c = "assemble cosmetic" ∨ c = "register" ∨ c = "login"
    ∨ c = "logout" ∨ c = "exit".
Proof.
  unfold CosmeticsTokenizer.keys, CosmeticsTokenizer.COMMANDS.
  cbn [map fst]. rewrite !elem_of_cons, elem_of_nil. tauto.
Qed.

(** C5: [tokenize] returns for every text, and its last token is the End
    token.  When no phrase of the vocabulary is a prefix of the trimmed,
    lower-cased text, the End token is all there is: no Command token, no
    literal.  When some phrase is, the first token is the Command token of
    a phrase of the vocabulary that is a prefix and is at least as long
    as every phrase that is a prefix; string literals follow, then the End
    token.  So a text that starts with [add item list], in any case, gives
    the Command token [add item list], not [add item]. *)
Theorem tokenize_longest_command (text : string) :
  let stripped := lower (strip text) in
  (∃ toks p, CosmeticsTokenizer.run text = toks ++ [mkToken EOF "" p])
  ∧ ((∀ c, c ∈ CosmeticsTokenizer.keys → startswith stripped c = false) →
     CosmeticsTokenizer.run text = [mkToken EOF "" 0])
  ∧ (∀ c, c ∈ CosmeticsTokenizer.keys → startswith stripped c = true →
     ∃ cmd lits,
       CosmeticsTokenizer.run text
       = mkToken COMMAND cmd 0 :: lits ++ [mkToken EOF "" (String.length cmd)]
       ∧ cmd ∈ CosmeticsTokenizer.keys
       ∧ startswith stripped cmd = true
       ∧ (∀ c', c' ∈ CosmeticsTokenizer.keys → startswith stripped c' = true →
                String.length c' ≤ String.length cmd)
       ∧ Forall (λ tok, type tok = STRING_LITERAL) lits)
  ∧ (startswith stripped "add item list" = true →
     head (CosmeticsTokenizer.run text)
     = Some (mkToken COMMAND "add item list" 0)).
Proof.
  intros stripped. subst stripped.
  split; [|split; [apply run_no_command|split]].
  2:{ intros c Hc Hstart.
      destruct (run_command_found text c Hc Hstart)
        as (cmd & Hrun & Hin & Hm & Hlong).
      exists cmd, (literals_after (String.length cmd) (strip text)).
      repeat split; try assumption. apply literal_loop_literals. }
  - destruct (match_loop_first (CosmeticsTokenizer.mk (strip text) [] 0)
                (lower (strip text))
                (sorted_by_len_desc CosmeticsTokenizer.keys))
      as [[Hall _]|(before & cmd & after & Heq & _ & Hm & _)].
    + exists [], 0. apply run_no_command. intros c Hc.
      apply sorted_by_len_desc_elem in Hc.
      exact (proj1 (Forall_forall _ _) Hall c Hc).
    + assert (cmd ∈ CosmeticsTokenizer.keys) as Hin.
      { apply sorted_by_len_desc_elem. rewrite Heq.
        apply elem_of_app. right. constructor. }
      destruct (run_command_found text cmd Hin Hm) as (cmd' & -> & _).
      exists (mkToken COMMAND cmd' 0
              :: literals_after (String.length cmd') (strip text)),
             (String.length cmd').
      reflexivity.
  - intros Hlist.
    assert ("add item list" ∈ CosmeticsTokenizer.keys) as Hkey
      by (apply keys_elem; auto 20).
    destruct (run_command_found text "add item list" Hkey Hlist)
      as (cmd & -> & Hin & Hm & Hlong).
    cbn [head]. f_equal. f_equal.
    pose proof (Hlong _ Hkey Hlist) as Hlen.
    apply startswith_append in Hlist as [r Hr]. rewrite Hr in Hm.
    apply keys_elem in Hin.
    repeat (destruct Hin as [->|Hin]; [first
      [reflexivity | cbn in Hlen; lia | vm_compute in Hm; discriminate Hm]|]).
    subst cmd. first
      [reflexivity | cbn in Hlen; lia | vm_compute in Hm; discriminate Hm].
Qed.

(** ** Quoted segments *)

Section Literals.
Import CosmeticsTokenizer.

Lemma closing_loop_found (emit : nat → Token)
    (continue_at : string → nat → list Token) (v : string) (d : ascii)
    (rest : string) (j : nat) :
  quote_free v → is_quote d = true →
  closing_loop emit continue_at (v +:+ String d rest) j
  = emit (j + String.length v)
    :: continue_at rest (j + String.length v + 1).
Proof.
  intros Hv Hd. revert j. induction v as [|c v IH]; intros j.
  - rewrite append_nil_l. cbn [closing_loop String.length]. rewrite Hd.
    rewrite Nat.add_0_r. reflexivity.
  - destruct Hv as [Hc Hv]. rewrite append_cons.
    cbn [closing_loop String.length]. rewrite Hc, (IH Hv).
    replace (j + 1 + String.length v) with (j + S (String.length v)) by lia.
    reflexivity.
Qed.

Lemma closing_loop_missing (emit : nat → Token)
    (continue_at : string → nat → list Token) (v : string) (j : nat) :
  quote_free v → closing_loop emit continue_at v j = [].
Proof.
  revert j. induction v as [|c v IH]; intros j Hv; [reflexivity|].
  destruct Hv as [Hc Hv]. cbn [closing_loop]. rewrite Hc. apply IH, Hv.
Qed.

Lemma literal_loop_skip (base : nat) (text g r : string) (i : nat) :
  quote_free g →
  literal_loop base text (g +:+ r) i
  = literal_loop base text r (i + String.length g).
Proof.
  revert i. induction g as [|c g IH]; intros i Hg.
  - rewrite append_nil_l, Nat.add_0_r. reflexivity.
  - destruct Hg as [Hc Hg]. rewrite append_cons.
    cbn [literal_loop String.length]. rewrite Hc, (IH _ Hg).
    f_equal. lia.
Qed.

Lemma quoted_append (v r : string) :
  quoted v +:+ r = String dquote (v +:+ String dquote r).
Proof.
  unfold quoted. rewrite append_cons, append_assoc, append_cons, append_nil_l.
  reflexivity.
Qed.

(** The outer loop over complete segments: one token for each, then the
    loop goes on with what follows them. *)
Lemma literal_loop_render (base : nat) (text : string)
    (segs : list (string * string)) (pre suffix : string) (i : nat) :
  segments_quote_free segs →
  text = pre +:+ render segs +:+ suffix → i = String.length pre →
  literal_loop base text (render segs +:+ suffix) i
  = literal_tokens base i segs
    ++ literal_loop base text suffix (i + String.length (render segs)).
Proof.
  intros Hsegs. revert pre i.
  induction Hsegs as [|[g v] segs [Hg Hv] Hsegs IH]; intros pre i Htext Hi.
  - cbn [render literal_tokens app String.length].
    rewrite append_nil_l, Nat.add_0_r. reflexivity.
  - cbn [fst snd] in Hg, Hv. cbn [render literal_tokens].
    rewrite !append_assoc, quoted_append.
    rewrite (literal_loop_skip _ _ _ _ _ Hg).
    cbn [literal_loop]. rewrite is_quote_dquote.
    rewrite (closing_loop_found _ _ _ _ _ _ Hv is_quote_dquote).
    cbn [app]. f_equal.
    + f_equal. subst text i. cbn [render].
      rewrite !append_assoc, quoted_append.
      replace (pre +:+ g +:+ String dquote (v +:+ String dquote (render segs +:+ suffix)))
        with ((pre +:+ g +:+ String dquote EmptyString)
              +:+ v +:+ String dquote (render segs +:+ suffix)).
      * apply slice_middle; [|reflexivity].
        rewrite !append_length. cbn [String.length]. lia.
      * rewrite !append_assoc, append_cons, append_nil_l. reflexivity.
    + rewrite (IH (pre +:+ g +:+ quoted v)).
      * f_equal; [f_equal; lia|]. f_equal.
        rewrite !append_length. unfold quoted. cbn [String.length].
        rewrite append_length. cbn [String.length]. lia.
      * subst text. cbn [render]. rewrite !append_assoc. reflexivity.
      * subst i. rewrite !append_length. unfold quoted. cbn [String.length].
        rewrite append_length. cbn [String.length]. lia.
Qed.

(** After the complete segments, an opening quote that is never closed
    ends the extraction. *)
Lemma literal_loop_unterminated (base : nat)
    (segs : list (string * string)) (g tail : string) :
  segments_quote_free segs → quote_free g → quote_free tail →
  let text := render segs +:+ g +:+ String dquote tail in
  literal_loop base text text 0 = literal_tokens base 0 segs.
Proof.
  intros Hsegs Hg Htail text. subst text.
  rewrite (literal_loop_render base
             (render segs +:+ g +:+ String dquote tail) segs EmptyString
             (g +:+ String dquote tail) 0 Hsegs eq_refl eq_refl).
  rewrite (literal_loop_skip _ _ _ _ _ Hg).
  cbn [literal_loop]. rewrite is_quote_dquote.
  rewrite (closing_loop_missing _ _ _ _ Htail). apply app_nil_r.
Qed.

Lemma literal_tokens_values (base i : nat) (segs : list (string * string)) :
  map value (literal_tokens base i segs) = map snd segs.
Proof.
  revert i. induction segs as [|[g v] segs IH]; intros i; [reflexivity|].
  cbn [literal_tokens map value snd]. rewrite IH. reflexivity.
Qed.
End Literals.

(** Every text is of one of two kinds: complete segments followed by text
    without a quote, or complete segments followed by an opening quote that
    is never closed. *)
Lemma is_quote_eq (c : ascii) : is_quote c = true → c = dquote.
Proof.
  destruct c as [[] [] [] [] [] [] [] []]; vm_compute;
    intros H; (reflexivity || discriminate H).
Qed.

Lemma split_at_quote (s : string) :
  quote_free s ∨ ∃ v r, quote_free v ∧ s = v +:+ String dquote r.
Proof.
  induction s as [|c s IH]; [left; exact I|].
  destruct (is_quote c) eqn:Hc.
  - right. exists EmptyString, s. split; [exact I|].
    rewrite (is_quote_eq c Hc). reflexivity.
  - destruct IH as [Hs|(v & r & Hv & ->)].
    + left. split; assumption.
    + right. exists (String c v), r. split; [split; assumption|reflexivity].
Qed.

Lemma segments_exist (s : string) :
  ∃ segs g,
    segments_quote_free segs ∧ quote_free g
    ∧ (s = render segs +:+ g
       ∨ ∃ tail, quote_free tail ∧ s = render segs +:+ g +:+ String dquote tail).
Proof.
  remember (String.length s) as n eqn:Hn.
  assert (String.length s ≤ n) as Hle by lia. clear Hn.
  revert s Hle. induction n as [|n IH]; intros s Hle.
  - destruct s; [|cbn in Hle; lia].
    exists [], EmptyString. split; [constructor|]. split; [exact I|].
    left. reflexivity.
  - destruct (split_at_quote s) as [Hs|(g0 & r & Hg0 & ->)].
    { exists [], s. split; [constructor|]. split; [assumption|].
      left. reflexivity. }
    destruct (split_at_quote r) as [Hr|(v & r' & Hv & ->)].
    { exists [], g0. split; [constructor|]. split; [assumption|].
      right. exists r. split; [assumption|reflexivity]. }
    destruct (IH r') as (segs & g & Hsegs & Hg & Hform).
    { rewrite !append_length in Hle. cbn [String.length] in Hle.
      rewrite append_length in Hle. cbn [String.length] in Hle. lia. }
    exists ((g0, v) :: segs), g.
    split; [constructor; [split; assumption|assumption]|].
    split; [assumption|]. cbn [render].
    destruct Hform as [->|(tail & Htail & ->)]; [left|right; exists tail; split;
      [assumption|]]; rewrite !append_assoc, quoted_append; reflexivity.
Qed.

(** C8: when the text that follows the command phrase is made of complete
    quoted segments and then an opening quote that is never closed,
    [tokenize] returns, after the Command token, one StringLiteral token
    for each complete segment, in order and with its content as value, and
    then the End token: the extraction stops at the opening quote and the
    text after it gives no token. *)
Theorem unterminated_quote_stops_extraction (text : string) (tok : Token)
    (self : CosmeticsTokenizer.t) (segs : list (string * string))
    (g tail : string) :
  CosmeticsTokenizer._match_command (CosmeticsTokenizer.init text)
  = (Some tok, self) →
  strip (str_drop (CosmeticsTokenizer.position self)
                  (CosmeticsTokenizer.input self))
  = render segs +:+ g +:+ String dquote tail →
  segments_quote_free segs → quote_free g → quote_free tail →
  CosmeticsTokenizer.run text
  = tok :: literal_tokens (CosmeticsTokenizer.position self) 0 segs
        ++ [mkToken EOF "" (CosmeticsTokenizer.position self)]
  ∧ map value (literal_tokens (CosmeticsTokenizer.position self) 0 segs)
    = map snd segs.
Proof.
  intros Hcmd Hrem Hsegs Hg Htail. split; [|apply literal_tokens_values].
  rewrite run_unfold.
  unfold CosmeticsTokenizer._match_command, CosmeticsTokenizer.init in Hcmd.
  cbn [CosmeticsTokenizer.input] in Hcmd. rewrite Hcmd. cbv zeta.
  rewrite Hrem.
  rewrite (literal_loop_unterminated _ segs g tail Hsegs Hg Htail).
  reflexivity.
Qed.

(** A line with two complete literals and a third one left open: the
    first two are extracted, the third and its text are dropped. *)
Lemma unterminated_quote_stops_extraction_witness :
  CosmeticsTokenizer.run
    ("add item list " +:+ quoted "a" +:+ " x " +:+ quoted "b"
     +:+ " " +:+ String dquote "c d")
  = [ mkToken COMMAND "add item list" 0;
      mkToken STRING_LITERAL "a" 13;
      mkToken STRING_LITERAL "b" 19;
      mkToken EOF "" 13 ].
Proof.
  apply (proj1 (unterminated_quote_stops_extraction
    ("add item list " +:+ quoted "a" +:+ " x " +:+ quoted "b"
     +:+ " " +:+ String dquote "c d")
    (mkToken COMMAND "add item list" 0)
    (CosmeticsTokenizer.mk
       ("add item list " +:+ quoted "a" +:+ " x " +:+ quoted "b"
        +:+ " " +:+ String dquote "c d") [] 13)
    [("", "a"); (" x ", "b")] " " "c d"
    eq_refl eq_refl
    ltac:(repeat constructor) ltac:(repeat constructor)
    ltac:(repeat constructor))).
Defined.

(** ** No separator after the phrase *)

Lemma lower_append (a b : string) : lower (a +:+ b) = lower a +:+ lower b.
Proof.
  induction a as [|c a IH]; [reflexivity|].
  rewrite append_cons. cbn [lower]. rewrite IH, append_cons. reflexivity.
Qed.

Lemma lstrip_head (c : ascii) (a b : string) :
  char_isspace c = false → lstrip (String c a +:+ b) = String c a +:+ b.
Proof. intros Hc. rewrite append_cons. cbn [lstrip]. rewrite Hc. reflexivity. Qed.

(** A text that begins with a phrase of the vocabulary still begins with
    it once trimmed and lower-cased, whatever follows the phrase. *)
Lemma phrase_prefix_kept (c rest : string) :
  c ∈ CosmeticsTokenizer.keys →
  startswith (lower (strip (c +:+ rest))) c = true.
Proof.
  intros Hc. apply startswith_append. exists (lower (rstrip rest)).
  apply keys_elem in Hc. unfold strip.
  repeat (destruct Hc as [->|Hc];
          [rewrite lstrip_head by reflexivity;
           rewrite rstrip_keeps_head by reflexivity;
           rewrite lower_append; reflexivity|]).
  subst c. rewrite lstrip_head by reflexivity.
  rewrite rstrip_keeps_head by reflexivity.
  rewrite lower_append. reflexivity.
Qed.


(** * Further properties of the executor *)

(* [set_solver] clears hypotheses it has already cleared. *)
#[local] Set Warnings "-clear-no-such-hyp".

Section Handlers.
Import CosmeticsExecutor.

(** [execute] on each of its branches. *)
Lemma execute_branches (cmd : string) (args : list string) (self : t) :
  execute (mkAST cmd args) self
  = if String.eqb cmd "apply theme" then
      match args with
      | [] => (Raise IndexError, self)
      | a :: _ => _apply_theme a self
      end
    else if String.eqb cmd "add item" then
      match args with
      | [] => (Raise IndexError, self)
      | a :: _ => _add_item a self
      end
    else if String.eqb cmd "remove item" then
      match args with
      | [] => (Raise IndexError, self)
      | a :: _ => _remove_item a self
      end
    else if String.eqb cmd "clear inventory" then _clear_inventory self
    else if String.eqb cmd "add item list" then _add_item_list args self
    else if String.eqb cmd "color palette" then _set_color_palette args self
    else if String.eqb cmd "assemble cosmetic" then _assemble_cosmetic self
    else (Raise (ExecutionError cmd), self).
Proof.
  unfold execute. cbn [command arguments].
  repeat (match goal with
          | |- context [String.eqb cmd ?k] => destruct (String.eqb cmd k)
          end); try reflexivity;
    destruct args as [|a rest]; try reflexivity;
    cbn [first_arg]; unfold mbind, M_bind, mret, M_ret;
    match goal with
    | |- match ?c with _ => _ end = _ => destruct c as [[m|e] s]; reflexivity
    end.
Qed.

Lemma _remove_item_present (item : string) (self : t) :
  lower item ∈ inventory self →
  _remove_item item self
  = (Return (ItemRemoved item),
     mk (outfits self) (image_base_path self) (theme self)
        (inventory self ∖ {[lower item]}) (palette self)).
Proof.
  intros Hin. unfold _remove_item. unfold_M.
  rewrite bool_decide_eq_true_2 by exact Hin. reflexivity.
Qed.

Lemma _remove_item_absent (item : string) (self : t) :
  lower item ∉ inventory self →
  _remove_item item self = (Return (ItemNotPresent item), self).
Proof.
  intros Hin. unfold _remove_item. unfold_M.
  rewrite bool_decide_eq_false_2 by exact Hin. reflexivity.
Qed.

(** A method that returns does not raise. *)
Lemma returns_not_Raise {A : Type} (c : M A) (self self' : t) (e : Exception) :
  returns c self → c self = (Raise e, self') → False.
Proof. intros (a & s & ->). discriminate. Qed.

Lemma _clear_inventory_returns (self : t) : returns _clear_inventory self.
Proof. eexists _, _. reflexivity. Qed.

Lemma _set_color_palette_returns (colors : list string) (self : t) :
  returns (_set_color_palette colors) self.
Proof. eexists _, _. reflexivity. Qed.

Lemma _assemble_cosmetic_returns (self : t) : returns _assemble_cosmetic self.
Proof.
  destruct (assemble_keeps_executor self) as [msg H]. eexists _, _. exact H.
Qed.

(** What [execute] raises, and that it has changed nothing by then. *)
Lemma execute_Raise_inv (ast : ASTNode) (self self' : t) (e : Exception) :
  execute ast self = (Raise e, self') →
  self' = self
  ∧ ((e = IndexError ∧ arguments ast = []
      ∧ command ast ∈ ["apply theme"; "add item"; "remove item"])
     ∨ (e = ExecutionError (command ast) ∧ command ast ∉ dispatched)).
Proof.
  destruct ast as [cmd args]. rewrite execute_branches. cbn [command arguments].
  destruct (String.eqb_spec cmd "apply theme") as [->|N1].
  { destruct args as [|a rest].
    - intros [= <- <-]. split; [reflexivity|]. left.
      repeat split. rewrite !elem_of_cons. auto.
    - intros H. destruct (returns_not_Raise _ _ _ _ (_apply_theme_returns a self) H). }
  destruct (String.eqb_spec cmd "add item") as [->|N2].
  { destruct args as [|a rest].
    - intros [= <- <-]. split; [reflexivity|]. left.
      repeat split. rewrite !elem_of_cons. auto.
    - intros H. destruct (returns_not_Raise _ _ _ _ (_add_item_returns a self) H). }
  destruct (String.eqb_spec cmd "remove item") as [->|N3].
  { destruct args as [|a rest].
    - intros [= <- <-]. split; [reflexivity|]. left.
      repeat split. rewrite !elem_of_cons. auto.
    - intros H. destruct (returns_not_Raise _ _ _ _ (_remove_item_returns a self) H). }
  destruct (String.eqb_spec cmd "clear inventory") as [->|N4].
  { intros H. destruct (returns_not_Raise _ _ _ _ (_clear_inventory_returns self) H). }
  destruct (String.eqb_spec cmd "add item list") as [->|N5].
  { intros H. destruct (returns_not_Raise _ _ _ _ (_add_item_list_returns args self) H). }
  destruct (String.eqb_spec cmd "color palette") as [->|N6].
  { intros H.
    destruct (returns_not_Raise _ _ _ _ (_set_color_palette_returns args self) H). }
  destruct (String.eqb_spec cmd "assemble cosmetic") as [->|N7].
  { intros H. destruct (returns_not_Raise _ _ _ _ (_assemble_cosmetic_returns self) H). }
  intros [= <- <-]. split; [reflexivity|]. right. split; [reflexivity|].
  unfold dispatched. rewrite !elem_of_cons, elem_of_nil. tauto.
Qed.

(** The catalog and the image directory are never written. *)
Lemma add_item_loop_keeps_catalog (items : list string) (added : nat) (self : t) :
  outfits (snd (add_item_loop items added self)) = outfits self
  ∧ image_base_path (snd (add_item_loop items added self))
    = image_base_path self
  ∧ theme (snd (add_item_loop items added self)) = theme self
  ∧ palette (snd (add_item_loop items added self)) = palette self.
Proof.
  revert added self. induction items as [|it items IH]; intros added self.
  - repeat split.
  - cbn [add_item_loop]. unfold_M.
    destruct (negb _); [|apply IH].
    match goal with |- context [add_item_loop items ?n ?s] =>
      destruct (IH n s) as (H1 & H2 & H3 & H4) end.
    rewrite H1, H2, H3, H4. repeat split.
Qed.

Lemma execute_keeps_catalog (ast : ASTNode) (self : t) :
  outfits (snd (execute ast self)) = outfits self
  ∧ image_base_path (snd (execute ast self)) = image_base_path self.
Proof.
  destruct ast as [cmd args]. rewrite execute_branches.
  repeat (match goal with
          | |- context [String.eqb cmd ?k] => destruct (String.eqb cmd k)
          end).
  - destruct args; split; reflexivity.
  - destruct args as [|a rest]; [split; reflexivity|].
    unfold _add_item. unfold_M. destruct (bool_decide _); split; reflexivity.
  - destruct args as [|a rest]; [split; reflexivity|].
    unfold _remove_item. unfold_M. destruct (negb _); split; reflexivity.
  - split; reflexivity.
  - unfold _add_item_list. unfold_M.
    destruct (add_item_loop_keeps_catalog args 0 self) as (H1 & H2 & _).
    destruct (add_item_loop args 0 self) as [[n|e] self']; split; assumption.
  - split; reflexivity.
  - destruct (assemble_keeps_executor self) as [msg ->]. split; reflexivity.
  - split; reflexivity.
Qed.
End Handlers.

(** X1: when [execute] raises, the executor is exactly as it was before the
    call, and the exception is either the [IndexError] of [args[0]], for
    [apply theme], [add item] or [remove item] given no argument, or the
    [ExecutionError] of a command that has no branch in [execute]. *)
Theorem execute_raises_before_writing (ast : ASTNode)
    (self self' : CosmeticsExecutor.t) (e : Exception) :
  CosmeticsExecutor.execute ast self = (Raise e, self') →
  self' = self
  ∧ ((e = IndexError ∧ arguments ast = []
      ∧ command ast ∈ ["apply theme"; "add item"; "remove item"])
     ∨ (e = ExecutionError (command ast) ∧ command ast ∉ dispatched)).
Proof. apply execute_Raise_inv. Qed.

(** [add item] without an argument, as only a caller that skips the parser
    can build it. *)
Lemma execute_raises_before_writing_witness :
  CosmeticsExecutor.execute (mkAST "add item" []) scenario_executor
  = (Raise IndexError, scenario_executor)
  ∧ scenario_executor = scenario_executor
  ∧ ((IndexError = IndexError ∧ arguments (mkAST "add item" []) = []
      ∧ command (mkAST "add item" [])
        ∈ ["apply theme"; "add item"; "remove item"])
     ∨ (IndexError = ExecutionError (command (mkAST "add item" []))
        ∧ command (mkAST "add item" []) ∉ dispatched)).
Proof.
  split; [reflexivity|].
  apply (execute_raises_before_writing (mkAST "add item" [])
           scenario_executor scenario_executor IndexError).
  reflexivity.
Defined.

(** X2: no sequence of commands changes the catalog of outfits or the image
    directory of the executor. *)
Theorem execute_all_keeps_catalog (asts : list ASTNode)
    (self : CosmeticsExecutor.t) :
  CosmeticsExecutor.outfits (CosmeticsExecutor.execute_all asts self)
  = CosmeticsExecutor.outfits self
  ∧ CosmeticsExecutor.image_base_path (CosmeticsExecutor.execute_all asts self)
    = CosmeticsExecutor.image_base_path self.
Proof.
  revert self. induction asts as [|ast asts IH]; intros self; [split; reflexivity|].
  cbn. destruct (IH (snd (CosmeticsExecutor.execute ast self))) as [H1 H2].
  destruct (execute_keeps_catalog ast self) as [H3 H4].
  unfold CosmeticsExecutor.execute_all in H1, H2.
  rewrite H1, H2. split; assumption.
Qed.

Section Inventory.
Import CosmeticsExecutor.

Lemma execute_remove_item (item : string) (self : t) :
  execute (mkAST "remove item" [item]) self = _remove_item item self.
Proof. rewrite execute_branches. reflexivity. Qed.

(** The executor after the loop of [_add_item_list], and its counter. *)
Lemma add_item_loop_result (items : list string) (added : nat) (self : t) :
  add_item_loop items added self
  = (Return (added
             + (size (list_to_set (map lower items) ∪ inventory self)
                - size (inventory self))),
     mk (outfits self) (image_base_path self) (theme self)
        (list_to_set (map lower items) ∪ inventory self) (palette self)).
Proof.
  revert added self. induction items as [|it items IH]; intros added self.
  - cbn [add_item_loop map list_to_set foldr]. unfold_M.
    rewrite (left_id_L ∅ (∪)), Nat.sub_diag, Nat.add_0_r.
    destruct self; reflexivity.
  - cbn [add_item_loop map list_to_set foldr]. unfold_M.
    destruct (decide (lower it ∈ inventory self)) as [Hin|Hin].
    + rewrite bool_decide_eq_true_2 by exact Hin. cbn [negb].
      rewrite IH.
      replace ({[lower it]} ∪ list_to_set (map lower items) ∪ inventory self)
        with (list_to_set (C := gset string) (map lower items) ∪ inventory self)
        by set_solver.
      reflexivity.
    + rewrite bool_decide_eq_false_2 by exact Hin. cbn [negb].
      rewrite IH. cbn [outfits image_base_path theme inventory palette].
      replace (list_to_set (map lower items) ∪ ({[lower it]} ∪ inventory self))
        with ({[lower it]} ∪ list_to_set (C := gset string) (map lower items)
              ∪ inventory self) by set_solver.
      f_equal. f_equal.
      assert (size ({[lower it]} ∪ inventory self) = S (size (inventory self)))
        as Hs.
      { rewrite size_union by set_solver. rewrite size_singleton. reflexivity. }
      assert (size ({[lower it]} ∪ inventory self)
              ≤ size ({[lower it]} ∪ list_to_set (C := gset string)
                        (map lower items) ∪ inventory self)) as Hle.
      { apply subseteq_size. set_solver. }
      lia.
Qed.

(** A list gives a set with no more entries than it has elements. *)
Lemma lowered_set_size (items : list string) :
  size (list_to_set (C := gset string) (map lower items)) ≤ length items.
Proof.
  induction items as [|x l IH]; cbn [map list_to_set foldr length].
  - rewrite size_empty. lia.
  - rewrite size_union_alt, size_singleton.
    assert (size (list_to_set (C := gset string) (map lower l) ∖ {[lower x]})
            ≤ size (list_to_set (C := gset string) (map lower l)))
      by (apply subseteq_size; set_solver).
    lia.
Qed.

(** The loop of [_add_item_list] does what [_add_item] does item by item. *)
Lemma add_item_loop_as_adds (items : list string) (added : nat) (self : t) :
  snd (add_item_loop items added self)
  = execute_all (map (λ it, mkAST "add item" [it]) items) self.
Proof.
  revert added self. induction items as [|it items IH]; intros added self.
  - reflexivity.
  - cbn [add_item_loop map execute_all fold_left].
    rewrite execute_add_item. unfold _add_item. unfold_M.
    destruct (bool_decide (lower it ∈ inventory self)); cbn [negb snd];
      apply IH.
Qed.
End Inventory.

(** X3: [remove item] undoes [add item] whatever the casing.  When the
    lower-cased item is not in the inventory, adding [i] and then removing
    [i'], a casing of [i], returns the two confirmations and gives back
    the executor as it was. *)
Theorem remove_item_undoes_add_item (i i' : string)
    (self : CosmeticsExecutor.t) :
  lower i = lower i' → lower i ∉ CosmeticsExecutor.inventory self →
  ∃ self1,
    CosmeticsExecutor.execute (mkAST "add item" [i]) self
    = (Return (ItemAdded i), self1)
    ∧ CosmeticsExecutor.execute (mkAST "remove item" [i']) self1
      = (Return (ItemRemoved i'), self).
Proof.
  intros Hcase Hout. rewrite execute_add_item, (_add_item_absent i self Hout).
  eexists. split; [reflexivity|].
  rewrite execute_remove_item, _remove_item_present.
  - cbn [CosmeticsExecutor.outfits CosmeticsExecutor.image_base_path
         CosmeticsExecutor.theme CosmeticsExecutor.inventory
         CosmeticsExecutor.palette].
    rewrite <- Hcase.
    replace (({[lower i]} ∪ CosmeticsExecutor.inventory self) ∖ {[lower i]})
      with (CosmeticsExecutor.inventory self) by set_solver.
    destruct self; reflexivity.
  - cbn [CosmeticsExecutor.inventory]. rewrite <- Hcase. set_solver.
Qed.

(** The case-insensitivity scenario of the specification. *)
Lemma remove_item_undoes_add_item_witness :
  lower "Jacket" = lower "JACKET"
  ∧ ∃ self1,
      CosmeticsExecutor.execute (mkAST "add item" ["Jacket"])
        (CosmeticsExecutor.init [] "")
      = (Return (ItemAdded "Jacket"), self1)
      ∧ CosmeticsExecutor.execute (mkAST "remove item" ["JACKET"]) self1
        = (Return (ItemRemoved "JACKET"), CosmeticsExecutor.init [] "").
Proof.
  split; [reflexivity|].
  apply (remove_item_undoes_add_item "Jacket" "JACKET"
           (CosmeticsExecutor.init [] "") eq_refl).
  vm_compute. set_solver.
Defined.

(** X4: [remove item] of an item whose lower-cased form is not in the
    inventory returns the warning and leaves the executor as it is; of an
    item that is there, it removes that one entry, so the inventory has
    one entry less, and touches nothing else. *)
Theorem remove_item_cases (i : string) (self : CosmeticsExecutor.t) :
  (lower i ∉ CosmeticsExecutor.inventory self →
   CosmeticsExecutor.execute (mkAST "remove item" [i]) self
   = (Return (ItemNotPresent i), self))
  ∧ (lower i ∈ CosmeticsExecutor.inventory self →
     ∃ self1,
       CosmeticsExecutor.execute (mkAST "remove item" [i]) self
       = (Return (ItemRemoved i), self1)
       ∧ CosmeticsExecutor.inventory self1
         = CosmeticsExecutor.inventory self ∖ {[lower i]}
       ∧ S (size (CosmeticsExecutor.inventory self1))
         = size (CosmeticsExecutor.inventory self)
       ∧ CosmeticsExecutor.theme self1 = CosmeticsExecutor.theme self
       ∧ CosmeticsExecutor.palette self1 = CosmeticsExecutor.palette self).
Proof.
  rewrite execute_remove_item. split; intros Hin.
  - apply _remove_item_absent, Hin.
  - rewrite (_remove_item_present i self Hin). eexists.
    split; [reflexivity|].
    cbn [CosmeticsExecutor.inventory CosmeticsExecutor.theme
         CosmeticsExecutor.palette].
    repeat split.
    rewrite size_difference by set_solver.
    rewrite size_singleton.
    assert (size (CosmeticsExecutor.inventory self) ≠ 0)
      by (apply size_non_empty_iff; set_solver).
    lia.
Qed.

(** X5: [add item list] returns, leaves in the inventory the former entries
    and the lower-cased items of the list, and reports as added the number
    of entries the inventory has grown by: an item already there, or given
    twice in the list, in whatever casing, is not counted.  Theme, palette
    and catalog are untouched. *)
Theorem add_item_list_result (items : list string)
    (self : CosmeticsExecutor.t) :
  ∃ self1 added,
    CosmeticsExecutor.execute (mkAST "add item list" items) self
    = (Return (ItemsAdded added), self1)
    ∧ CosmeticsExecutor.inventory self1
      = list_to_set (map lower items) ∪ CosmeticsExecutor.inventory self
    ∧ size (CosmeticsExecutor.inventory self1)
      = size (CosmeticsExecutor.inventory self) + added
    ∧ added ≤ length items
    ∧ CosmeticsExecutor.theme self1 = CosmeticsExecutor.theme self
    ∧ CosmeticsExecutor.palette self1 = CosmeticsExecutor.palette self
    ∧ CosmeticsExecutor.outfits self1 = CosmeticsExecutor.outfits self.
Proof.
  rewrite execute_branches. cbn [String.eqb Ascii.eqb Bool.eqb].
  unfold CosmeticsExecutor._add_item_list. unfold_M.
  rewrite add_item_loop_result. eexists _, _. split; [reflexivity|].
  cbn [CosmeticsExecutor.inventory CosmeticsExecutor.theme
       CosmeticsExecutor.palette CosmeticsExecutor.outfits].
  assert (size (CosmeticsExecutor.inventory self)
          ≤ size (list_to_set (C := gset string) (map lower items)
                  ∪ CosmeticsExecutor.inventory self)) as Hle
    by (apply subseteq_size; set_solver).
  assert (size (list_to_set (C := gset string) (map lower items)
                ∪ CosmeticsExecutor.inventory self)
          ≤ length items + size (CosmeticsExecutor.inventory self)) as Hup.
  { rewrite size_union_alt.
    assert (size (CosmeticsExecutor.inventory self
                  ∖ list_to_set (C := gset string) (map lower items))
            ≤ size (CosmeticsExecutor.inventory self))
      by (apply subseteq_size; set_solver).
    pose proof (lowered_set_size items). lia. }
  repeat split; lia.
Qed.

(** X6: [add item list] leaves the executor that the same items added one
    by one with [add item], in the same order, leave. *)
Theorem add_item_list_as_add_items (items : list string)
    (self : CosmeticsExecutor.t) :
  snd (CosmeticsExecutor.execute (mkAST "add item list" items) self)
  = CosmeticsExecutor.execute_all
      (map (λ it, mkAST "add item" [it]) items) self.
Proof.
  rewrite execute_branches. cbn [String.eqb Ascii.eqb Bool.eqb].
  unfold CosmeticsExecutor._add_item_list. unfold_M.
  rewrite <- (add_item_loop_as_adds items 0 self).
  destruct (CosmeticsExecutor.add_item_loop items 0 self) as [[n|e] s];
    reflexivity.
Qed.

(** * Further properties of the matching *)

Section Agreement.
Import CosmeticsExecutor.

Lemma execute_assemble (args : list string) (self : t) :
  execute (mkAST "assemble cosmetic" args) self = _assemble_cosmetic self.
Proof. rewrite execute_branches. reflexivity. Qed.

(** The three guards of [_assemble_cosmetic]. *)
Lemma assemble_no_theme (self : t) :
  opt_truthy (theme self) = false →
  _assemble_cosmetic self = (Return NoThemeSet, self).
Proof.
  intros Hth. unfold _assemble_cosmetic. unfold_M. rewrite Hth. reflexivity.
Qed.

Lemma assemble_empty_inventory (self : t) :
  opt_truthy (theme self) = true → inventory self = ∅ →
  _assemble_cosmetic self = (Return InventoryEmpty, self).
Proof.
  intros Hth Hinv. unfold _assemble_cosmetic, set_truthy. unfold_M.
  rewrite Hth, Hinv. rewrite bool_decide_eq_true_2 by reflexivity.
  reflexivity.
Qed.

Lemma assemble_no_outfit (self : t) :
  opt_truthy (theme self) = true → inventory self ≠ ∅ →
  theme_outfits_of self = [] →
  _assemble_cosmetic self
  = (Return (NoOutfitsForTheme (default EmptyString (theme self))), self).
Proof.
  intros Hth Hinv Hnone. unfold _assemble_cosmetic, set_truthy. unfold_M.
  rewrite Hth, Hnone. rewrite bool_decide_eq_false_2 by exact Hinv.
  reflexivity.
Qed.

Lemma opt_truthy_Some (o : option string) :
  opt_truthy o = true ↔ ∃ th, o = Some th ∧ th ≠ EmptyString.
Proof.
  destruct o as [[|c th]|]; cbn; split; try discriminate.
  - intros (th & [= <-] & Hne). contradiction.
  - intros _. eexists. split; [reflexivity|discriminate].
  - reflexivity.
  - intros (th & H & _). discriminate.
Qed.

(** The loop of [get_matching_outfits] keeps, among the outfits of the
    theme, the exact matches of [_assemble_cosmetic]. *)
Lemma matching_loop_exact (self : t) (os matches : list CosmeticOutfit.t) :
  matching_loop self (inventory self) (pal_of self) os matches
  = matches
    ++ filter (exact_match self)
         (filter (λ o, Some (lower (CosmeticOutfit.theme o)) = theme self) os).
Proof.
  revert matches. induction os as [|o os IH]; intros matches.
  - cbn. rewrite app_nil_r. reflexivity.
  - cbn [matching_loop].
    destruct (decide (Some (lower (CosmeticOutfit.theme o)) = theme self))
      as [Ht|Ht].
    2:{ rewrite bool_decide_eq_false_2 by exact Ht. cbn [negb].
        rewrite (filter_cons_False
                   (λ o, Some (lower (CosmeticOutfit.theme o)) = theme self)
                   o os Ht).
        apply IH. }
    rewrite bool_decide_eq_true_2 by exact Ht. cbn [negb].
    rewrite (filter_cons_True
               (λ o, Some (lower (CosmeticOutfit.theme o)) = theme self)
               o os Ht).
    destruct (set_truthy (items_set o ∖ inventory self)) eqn:Hitems.
    { rewrite filter_cons_False; [apply IH|].
      intros [H _]. apply set_truthy_false in H.
      unfold missing_items_of in H. congruence. }
    destruct (match pal_of self with
              | Some p => set_truthy (colors_set o ∖ p)
              | None => false
              end) eqn:Hcolors.
    { rewrite filter_cons_False; [apply IH|].
      intros [_ H]. unfold missing_colors_of in H.
      destruct (pal_of self); [|discriminate].
      apply set_truthy_false in H. congruence. }
    rewrite filter_cons_True, IH, <- app_assoc; [reflexivity|].
    split.
    + apply set_truthy_false, Hitems.
    + unfold missing_colors_of. destruct (pal_of self); [|reflexivity].
      apply set_truthy_false, Hcolors.
Qed.

Lemma get_matching_outfits_exact (self : t) :
  opt_truthy (theme self) = true →
  get_matching_outfits self
  = filter (exact_match self) (theme_outfits_of self).
Proof.
  intros Hth. unfold get_matching_outfits. rewrite Hth. cbn [negb].
  rewrite matching_loop_exact. reflexivity.
Qed.

(** Filtering by a stronger test keeps fewer elements, in the same order. *)
Lemma filter_sublist_impl {A : Type} (P Q : A → Prop)
    `{∀ x, Decision (P x)} `{∀ x, Decision (Q x)} (l : list A) :
  (∀ x, x ∈ l → P x → Q x) → filter P l `sublist_of` filter Q l.
Proof.
  induction l as [|x l IH]; intros Himp; [constructor|].
  assert (filter P l `sublist_of` filter Q l) as Hrec.
  { apply IH. intros y Hy. apply Himp. constructor. exact Hy. }
  destruct (decide (P x)) as [Hp|Hp].
  - rewrite (filter_cons_True P _ _ Hp).
    rewrite (filter_cons_True Q) by (apply Himp; [constructor|exact Hp]).
    constructor. exact Hrec.
  - rewrite (filter_cons_False P _ _ Hp).
    destruct (decide (Q x)) as [Hq|Hq].
    + rewrite (filter_cons_True Q _ _ Hq). constructor. exact Hrec.
    + rewrite (filter_cons_False Q _ _ Hq). exact Hrec.
Qed.

(** Two executors with the same theme and catalog: when every exact match
    of the first is one of the second, so is every outfit shown. *)
Lemma get_matching_outfits_mono (s1 s2 : t) :
  theme s1 = theme s2 → outfits s1 = outfits s2 →
  (∀ o, exact_match s1 o → exact_match s2 o) →
  get_matching_outfits s1 `sublist_of` get_matching_outfits s2.
Proof.
  intros Hth Hout Himp. unfold get_matching_outfits.
  rewrite <- Hth. destruct (negb (opt_truthy (theme s1))); [constructor|].
  rewrite !matching_loop_exact, <- Hth, <- Hout. cbn [app].
  apply filter_sublist_impl. intros o _. apply Himp.
Qed.

Lemma exact_match_more_items (s1 s2 : t) (o : CosmeticOutfit.t) :
  inventory s1 ⊆ inventory s2 → palette s1 = palette s2 →
  exact_match s1 o → exact_match s2 o.
Proof.
  unfold exact_match, missing_items_of, pal_of. intros Hsub <- [H1 H2].
  split; [|exact H2]. set_solver.
Qed.
End Agreement.

(** X7: [get_matching_outfits] shows the exact matches of [assemble
    cosmetic].  With a theme that is not empty, its result is the list of
    the outfits of the theme whose missing items and missing colours are
    both empty, in catalog order; it does not look at whether the
    inventory is empty. *)
Theorem get_matching_outfits_are_exact_matches (self : CosmeticsExecutor.t) :
  opt_truthy (CosmeticsExecutor.theme self) = true →
  CosmeticsExecutor.get_matching_outfits self
  = filter (exact_match self) (CosmeticsExecutor.theme_outfits_of self).
Proof. apply get_matching_outfits_exact. Qed.

Lemma get_matching_outfits_are_exact_matches_witness :
  opt_truthy (CosmeticsExecutor.theme scenario_executor) = true
  ∧ CosmeticsExecutor.get_matching_outfits scenario_executor
    = filter (exact_match scenario_executor)
             (CosmeticsExecutor.theme_outfits_of scenario_executor).
Proof.
  split; [reflexivity|].
  apply (get_matching_outfits_are_exact_matches scenario_executor).
  reflexivity.
Defined.

(** X8: the message of [assemble cosmetic] and the outfits of
    [get_matching_outfits] agree, and the message that no match was found
    is never returned.  A count of exact matches is positive and is the
    number of outfits shown; a count of near matches is positive, is the
    number of outfits of the theme, and then no outfit is shown. *)
Theorem assemble_agrees_with_display (args : list string)
    (self : CosmeticsExecutor.t) (msg : Message) :
  CosmeticsExecutor.execute (mkAST "assemble cosmetic" args) self
  = (Return msg, self) →
  msg ≠ NoMatches
  ∧ (∀ n, msg = ExactMatches n →
          0 < n ∧ length (CosmeticsExecutor.get_matching_outfits self) = n)
  ∧ (∀ n, msg = NearMatches n →
          0 < n
          ∧ n = length (CosmeticsExecutor.theme_outfits_of self)
          ∧ CosmeticsExecutor.get_matching_outfits self = []).
Proof.
  rewrite execute_assemble. intros Hmsg.
  destruct (opt_truthy (CosmeticsExecutor.theme self)) eqn:Hth.
  2:{ rewrite (assemble_no_theme self Hth) in Hmsg. injection Hmsg as <-.
      repeat split; intros; discriminate. }
  destruct (decide (CosmeticsExecutor.inventory self = ∅)) as [Hinv|Hinv].
  { rewrite (assemble_empty_inventory self Hth Hinv) in Hmsg.
    injection Hmsg as <-. repeat split; intros; discriminate. }
  destruct (CosmeticsExecutor.theme_outfits_of self) as [|o os] eqn:Hos.
  { rewrite (assemble_no_outfit self Hth Hinv Hos) in Hmsg.
    injection Hmsg as <-. repeat split; intros; discriminate. }
  pose proof Hth as Hsome. apply opt_truthy_Some in Hsome as (th & Hsome & Hne).
  rewrite (assemble_passed_guards self th Hsome Hne Hinv) in Hmsg
    by (rewrite Hos; discriminate).
  cbv zeta in Hmsg. rewrite (get_matching_outfits_exact self Hth).
  pose proof (filter_split_length (exact_match self)
                (CosmeticsExecutor.theme_outfits_of self)) as Hsum.
  rewrite Hos in Hmsg, Hsum |- *. cbn [length] in Hsum.
  destruct (Nat.ltb_spec 0 (length (filter (exact_match self) (o :: os))))
    as [He|He].
  - injection Hmsg as <-. split; [discriminate|].
    split; [intros n [= <-]; split; [exact He|reflexivity]|discriminate].
  - destruct (Nat.ltb_spec 0
      (length (filter (λ o0, ¬ exact_match self o0) (o :: os)))) as [Hn|Hn];
      [|lia].
    injection Hmsg as <-. split; [discriminate|].
    split; [discriminate|]. intros n [= <-].
    split; [exact Hn|]. split; [cbn [length]; lia|].
    destruct (filter (exact_match self) (o :: os)); [reflexivity|].
    cbn [length] in He. lia.
Qed.

(** The fifth scenario of the specification: without the boots there is
    one near match for each outfit of the theme, and nothing is shown. *)
Lemma assemble_agrees_with_display_witness :
  CosmeticsExecutor.execute (mkAST "assemble cosmetic" [])
    (snd (CosmeticsExecutor.execute (mkAST "remove item" ["boots"])
            scenario_executor))
  = (Return (NearMatches 2),
     snd (CosmeticsExecutor.execute (mkAST "remove item" ["boots"])
            scenario_executor))
  ∧ CosmeticsExecutor.get_matching_outfits
      (snd (CosmeticsExecutor.execute (mkAST "remove item" ["boots"])
              scenario_executor))
    = [].
Proof.
  split; [reflexivity|].
  destruct (assemble_agrees_with_display []
              (snd (CosmeticsExecutor.execute (mkAST "remove item" ["boots"])
                      scenario_executor))
              (NearMatches 2)) as (_ & _ & Hnear); [reflexivity|].
  destruct (Hnear 2 eq_refl) as (_ & _ & Hshown). exact Hshown.
Defined.

Section Monotone.
Import CosmeticsExecutor.

Lemma add_item_state (i : string) (self : t) :
  theme (snd (_add_item i self)) = theme self
  ∧ outfits (snd (_add_item i self)) = outfits self
  ∧ palette (snd (_add_item i self)) = palette self
  ∧ inventory self ⊆ inventory (snd (_add_item i self)).
Proof.
  unfold _add_item. unfold_M.
  destruct (bool_decide _); cbn; repeat split; set_solver.
Qed.

Lemma remove_item_state (i : string) (self : t) :
  theme (snd (_remove_item i self)) = theme self
  ∧ outfits (snd (_remove_item i self)) = outfits self
  ∧ palette (snd (_remove_item i self)) = palette self
  ∧ inventory (snd (_remove_item i self)) ⊆ inventory self.
Proof.
  unfold _remove_item. unfold_M.
  destruct (negb _); cbn; repeat split; set_solver.
Qed.

(** The executor with another palette. *)
Lemma color_palette_state (colors : list string) (self : t) :
  snd (execute (mkAST "color palette" colors) self)
  = mk (outfits self) (image_base_path self) (theme self) (inventory self)
       (map lower colors).
Proof. rewrite execute_branches. reflexivity. Qed.

(** [pal_of] sees the palette as a set. *)
Lemma pal_of_same_elements (s1 s2 : t) :
  (∀ c, c ∈ palette s1 ↔ c ∈ palette s2) → pal_of s1 = pal_of s2.
Proof.
  intros Hsame. unfold pal_of.
  destruct (palette s1) as [|c1 p1] eqn:H1, (palette s2) as [|c2 p2] eqn:H2;
    cbn [list_truthy].
  - reflexivity.
  - exfalso. apply (elem_of_nil c2), Hsame. constructor.
  - exfalso. apply (elem_of_nil c1), Hsame. constructor.
  - f_equal. apply set_eq. intros c.
    rewrite !elem_of_list_to_set. apply Hsame.
Qed.

(** Matching reads the palette through [pal_of] only. *)
Lemma matching_by_pal_of (s1 s2 : t) :
  outfits s1 = outfits s2 → theme s1 = theme s2 →
  inventory s1 = inventory s2 → pal_of s1 = pal_of s2 →
  fst (_assemble_cosmetic s1) = fst (_assemble_cosmetic s2)
  ∧ get_matching_outfits s1 = get_matching_outfits s2.
Proof.
  intros Ho Ht Hi Hp. split.
  - unfold _assemble_cosmetic, theme_outfits_of. unfold_M.
    rewrite Ho, Ht, Hi, Hp.
    destruct (negb (opt_truthy _)); [reflexivity|].
    destruct (negb (set_truthy _)); [reflexivity|].
    destruct (negb (list_truthy _)); [reflexivity|].
    destruct (classify_loop _ _ _ _ _) as [exact near].
    destruct (list_truthy exact); [reflexivity|].
    destruct (list_truthy near); reflexivity.
  - unfold get_matching_outfits. rewrite Ho, Ht, Hi, Hp.
    destruct (negb (opt_truthy _)); [reflexivity|].
    clear Ho. generalize (@nil CosmeticOutfit.t) as acc.
    induction (outfits s2) as [|o os IH]; intros acc; [reflexivity|].
    cbn [matching_loop]. rewrite Ht.
    repeat (match goal with
            | |- (if ?b then _ else _) = _ => destruct b
            end); apply IH.
Qed.
End Monotone.

(** X9: adding an item never takes an outfit off the display, and removing
    one never puts an outfit on it: the result of [get_matching_outfits]
    before [add item] is a sublist of the result after it, and the result
    after [remove item] is a sublist of the result before it. *)
Theorem display_monotone_in_inventory (i : string)
    (self : CosmeticsExecutor.t) :
  CosmeticsExecutor.get_matching_outfits self
    `sublist_of` CosmeticsExecutor.get_matching_outfits
                   (snd (CosmeticsExecutor.execute (mkAST "add item" [i]) self))
  ∧ CosmeticsExecutor.get_matching_outfits
      (snd (CosmeticsExecutor.execute (mkAST "remove item" [i]) self))
    `sublist_of` CosmeticsExecutor.get_matching_outfits self.
Proof.
  rewrite execute_add_item, execute_remove_item. split.
  - destruct (add_item_state i self) as (Ht & Ho & Hp & Hi).
    apply get_matching_outfits_mono; [congruence|congruence|].
    intros o. apply exact_match_more_items; [exact Hi|congruence].
  - destruct (remove_item_state i self) as (Ht & Ho & Hp & Hi).
    apply get_matching_outfits_mono; [congruence|congruence|].
    intros o. apply exact_match_more_items; [exact Hi|congruence].
Qed.

(** X10: a palette only restricts.  On an executor without a palette,
    [color palette] never puts an outfit on the display: the outfits shown
    afterwards are a sublist of those shown before. *)
Theorem palette_only_restricts (colors : list string)
    (self : CosmeticsExecutor.t) :
  CosmeticsExecutor.palette self = [] →
  CosmeticsExecutor.get_matching_outfits
    (snd (CosmeticsExecutor.execute (mkAST "color palette" colors) self))
  `sublist_of` CosmeticsExecutor.get_matching_outfits self.
Proof.
  intros Hnone. rewrite color_palette_state.
  apply get_matching_outfits_mono; [reflexivity|reflexivity|].
  intros o [H1 _]. split; [exact H1|].
  unfold CosmeticsExecutor.pal_of. rewrite Hnone. reflexivity.
Qed.

Lemma palette_only_restricts_witness :
  CosmeticsExecutor.palette
    (CosmeticsExecutor.execute_all
       [mkAST "apply theme" ["cyberpunk"];
        mkAST "add item list" ["jacket"; "boots"]]
       (CosmeticsExecutor.init [scenario_outfit; hat_outfit] "")) = []
  ∧ CosmeticsExecutor.get_matching_outfits
      (snd (CosmeticsExecutor.execute (mkAST "color palette" ["black"])
        (CosmeticsExecutor.execute_all
           [mkAST "apply theme" ["cyberpunk"];
            mkAST "add item list" ["jacket"; "boots"]]
           (CosmeticsExecutor.init [scenario_outfit; hat_outfit] ""))))
    `sublist_of`
    CosmeticsExecutor.get_matching_outfits
      (CosmeticsExecutor.execute_all
         [mkAST "apply theme" ["cyberpunk"];
          mkAST "add item list" ["jacket"; "boots"]]
         (CosmeticsExecutor.init [scenario_outfit; hat_outfit] "")).
Proof.
  split; [reflexivity|].
  apply (palette_only_restricts ["black"]). reflexivity.
Defined.

(** X11: matching is blind to the order, the repetitions and the case of
    the colours of the palette.  Two [color palette] commands whose
    colours, lower-cased, are the same set leave executors on which
    [assemble cosmetic] returns the same message and
    [get_matching_outfits] the same outfits. *)
Theorem palette_matters_as_a_set (colors1 colors2 : list string)
    (self : CosmeticsExecutor.t) :
  (∀ c, c ∈ map lower colors1 ↔ c ∈ map lower colors2) →
  let s1 := snd (CosmeticsExecutor.execute (mkAST "color palette" colors1) self) in
  let s2 := snd (CosmeticsExecutor.execute (mkAST "color palette" colors2) self) in
  fst (CosmeticsExecutor.execute (mkAST "assemble cosmetic" []) s1)
  = fst (CosmeticsExecutor.execute (mkAST "assemble cosmetic" []) s2)
  ∧ CosmeticsExecutor.get_matching_outfits s1
    = CosmeticsExecutor.get_matching_outfits s2.
Proof.
  intros Hsame s1 s2. subst s1 s2.
  rewrite !execute_assemble, !color_palette_state.
  apply matching_by_pal_of; try reflexivity.
  apply pal_of_same_elements. exact Hsame.
Qed.

(** The order-independence scenario of the specification, with a colour
    repeated. *)
Lemma palette_matters_as_a_set_witness :
  fst (CosmeticsExecutor.execute (mkAST "assemble cosmetic" [])
         (snd (CosmeticsExecutor.execute
                 (mkAST "color palette" ["black"; "neon blue"])
                 scenario_executor)))
  = fst (CosmeticsExecutor.execute (mkAST "assemble cosmetic" [])
           (snd (CosmeticsExecutor.execute
                   (mkAST "color palette" ["Neon Blue"; "Black"; "black"])
                   scenario_executor))).
Proof.
  apply (palette_matters_as_a_set ["black"; "neon blue"]
           ["Neon Blue"; "Black"; "black"] scenario_executor).
  intros c. cbn. rewrite !elem_of_cons, !elem_of_nil. tauto.
Defined.

(** X12: the theme is chosen up to case.  [apply theme] confirms with the
    theme as it was typed, stores it lower-cased whatever theme was there
    before, leaves inventory and palette alone, and two casings of a theme
    give the same executor; the outfits of the theme are then the outfits
    of the catalog whose theme, lower-cased, is the lower-cased argument,
    in catalog order. *)
Theorem apply_theme_selects_up_to_case (t t' : string)
    (self : CosmeticsExecutor.t) :
  lower t = lower t' →
  ∃ self1,
    CosmeticsExecutor.execute (mkAST "apply theme" [t]) self
    = (Return (ThemeApplied t), self1)
    ∧ CosmeticsExecutor.execute (mkAST "apply theme" [t']) self
      = (Return (ThemeApplied t'), self1)
    ∧ CosmeticsExecutor.theme self1 = Some (lower t)
    ∧ CosmeticsExecutor.inventory self1 = CosmeticsExecutor.inventory self
    ∧ CosmeticsExecutor.palette self1 = CosmeticsExecutor.palette self
    ∧ CosmeticsExecutor.theme_outfits_of self1
      = filter (λ o, lower (CosmeticOutfit.theme o) = lower t)
               (CosmeticsExecutor.outfits self).
Proof.
  intros Hcase. rewrite !execute_branches. cbn [String.eqb Ascii.eqb Bool.eqb].
  unfold CosmeticsExecutor._apply_theme. unfold_M. rewrite <- Hcase.
  eexists. split; [reflexivity|]. split; [reflexivity|].
  cbn [CosmeticsExecutor.theme CosmeticsExecutor.inventory
       CosmeticsExecutor.palette].
  repeat split.
  unfold CosmeticsExecutor.theme_outfits_of.
  cbn [CosmeticsExecutor.theme CosmeticsExecutor.outfits].
  apply list_filter_iff. intros o. split; congruence.
Qed.

Lemma apply_theme_selects_up_to_case_witness :
  lower "Cyberpunk" = lower "CYBERPUNK"
  ∧ ∃ self1,
      CosmeticsExecutor.execute (mkAST "apply theme" ["Cyberpunk"])
        (CosmeticsExecutor.init [scenario_outfit; hat_outfit] "")
      = (Return (ThemeApplied "Cyberpunk"), self1)
      ∧ CosmeticsExecutor.theme_outfits_of self1
        = [scenario_outfit; hat_outfit].
Proof.
  split; [reflexivity|].
  destruct (apply_theme_selects_up_to_case "Cyberpunk" "CYBERPUNK"
              (CosmeticsExecutor.init [scenario_outfit; hat_outfit] "")
              eq_refl)
    as (self1 & H1 & _ & _ & _ & _ & H2).
  exists self1. split; [exact H1|]. rewrite H2. reflexivity.
Defined.

(** X13: [clear inventory] empties the inventory whatever it held and
    whatever arguments it is given, and keeps theme and palette; [assemble
    cosmetic] right after it never counts matches: it answers that no
    theme is set or that the inventory is empty. *)
Theorem clear_inventory_then_assemble (args : list string)
    (self : CosmeticsExecutor.t) :
  ∃ self1 msg,
    CosmeticsExecutor.execute (mkAST "clear inventory" args) self
    = (Return InventoryCleared, self1)
    ∧ CosmeticsExecutor.inventory self1 = ∅
    ∧ CosmeticsExecutor.theme self1 = CosmeticsExecutor.theme self
    ∧ CosmeticsExecutor.palette self1 = CosmeticsExecutor.palette self
    ∧ CosmeticsExecutor.execute (mkAST "assemble cosmetic" []) self1
      = (Return msg, self1)
    ∧ (msg = NoThemeSet ∨ msg = InventoryEmpty).
Proof.
  rewrite execute_branches. cbn [String.eqb Ascii.eqb Bool.eqb].
  unfold CosmeticsExecutor._clear_inventory. unfold_M.
  eexists.
  exists (if opt_truthy (CosmeticsExecutor.theme self)
          then InventoryEmpty else NoThemeSet).
  split; [reflexivity|].
  cbn [CosmeticsExecutor.theme CosmeticsExecutor.inventory
       CosmeticsExecutor.palette].
  split; [reflexivity|]. split; [reflexivity|]. split; [reflexivity|].
  rewrite execute_assemble.
  destruct (opt_truthy (CosmeticsExecutor.theme self)) eqn:Hth.
  - rewrite assemble_empty_inventory by (try reflexivity; exact Hth).
    split; [reflexivity|]. right. reflexivity.
  - rewrite assemble_no_theme by exact Hth.
    split; [reflexivity|]. left. reflexivity.
Qed.

(** * Further properties of the tokenizer and the parser *)

(** ** Trimming *)

Lemma lstrip_append (a b : string) :
  lstrip (a +:+ b)
  = match lstrip a with
    | EmptyString => lstrip b
    | String c r => String c r +:+ b
    end.
Proof.
  induction a as [|x a IH]; [rewrite append_nil_l; reflexivity|].
  rewrite append_cons. cbn [lstrip].
  destruct (char_isspace x); [exact IH|reflexivity].
Qed.

Lemma lstrip_all_space (s : string) : all_space s → lstrip s = EmptyString.
Proof.
  induction s as [|c s IH]; [reflexivity|]. intros [Hc Hs].
  cbn [lstrip]. rewrite Hc. apply IH, Hs.
Qed.

Lemma rstrip_all_space (s : string) : all_space s → rstrip s = EmptyString.
Proof.
  induction s as [|c s IH]; [reflexivity|]. intros [Hc Hs].
  cbn [rstrip]. rewrite (IH Hs), Hc. reflexivity.
Qed.

Lemma rstrip_nil_all_space (s : string) : rstrip s = EmptyString → all_space s.
Proof.
  induction s as [|c s IH]; [intros _; exact I|].
  cbn [rstrip]. destruct (rstrip s) as [|d r]; [|discriminate].
  destruct (char_isspace c) eqn:Hc; [|discriminate].
  intros _. split; [exact Hc|]. apply IH. reflexivity.
Qed.

(** White space around a text does not survive [strip]. *)
Lemma strip_padding (pad1 text pad2 : string) :
  all_space pad1 → all_space pad2 →
  strip (pad1 +:+ text +:+ pad2) = strip text.
Proof.
  intros H1 H2. unfold strip.
  rewrite lstrip_append, (lstrip_all_space pad1 H1), lstrip_append.
  destruct (lstrip text) as [|c r] eqn:Ht.
  - rewrite (lstrip_all_space pad2 H2). reflexivity.
  - rewrite rstrip_append, (rstrip_all_space pad2 H2). reflexivity.
Qed.

(** X14: the tokenizer ignores white space around the line: a text and the
    same text between two runs of white space give the same tokens, with
    the same positions. *)
Theorem tokenize_ignores_padding (pad1 text pad2 : string) :
  all_space pad1 → all_space pad2 →
  CosmeticsTokenizer.run (pad1 +:+ text +:+ pad2) = CosmeticsTokenizer.run text.
Proof.
  intros H1 H2. unfold CosmeticsTokenizer.run, CosmeticsTokenizer.init.
  rewrite (strip_padding pad1 text pad2 H1 H2). reflexivity.
Qed.

Lemma tokenize_ignores_padding_witness :
  CosmeticsTokenizer.run
    ("  " +:+ ("add item " +:+ quoted "Jacket") +:+ String (ascii_of_nat 9) " ")
  = CosmeticsTokenizer.run ("add item " +:+ quoted "Jacket").
Proof.
  apply (tokenize_ignores_padding "  " ("add item " +:+ quoted "Jacket")
           (String (ascii_of_nat 9) " ")).
  - repeat split.
  - repeat split.
Defined.

(** ** Closed quotes and command lines *)

Section Complete.
Import CosmeticsTokenizer.

(** When every quote is closed, every segment gives its token. *)
Lemma literal_loop_complete (base : nat) (segs : list (string * string))
    (g : string) :
  segments_quote_free segs → quote_free g →
  let text := render segs +:+ g in
  literal_loop base text text 0 = literal_tokens base 0 segs.
Proof.
  intros Hsegs Hg text. subst text.
  rewrite (literal_loop_render base (render segs +:+ g) segs EmptyString g 0
             Hsegs eq_refl eq_refl).
  rewrite <- (append_nil_r g) at 2.
  rewrite (literal_loop_skip _ _ _ _ _ Hg). cbn [literal_loop].
  apply app_nil_r.
Qed.

Lemma collect_args_literal_tokens (base i : nat)
    (segs : list (string * string)) (rest : list Token) :
  CosmeticsParser.collect_args (literal_tokens base i segs ++ rest)
  = map snd segs ++ CosmeticsParser.collect_args rest.
Proof.
  revert i. induction segs as [|[g v] segs IH]; intros i; [reflexivity|].
  cbn [literal_tokens app CosmeticsParser.collect_args type value map snd].
  rewrite IH. reflexivity.
Qed.

(** The arguments of a command line as segments: a space before each. *)
Lemma arguments_text_render (args : list string) :
  arguments_text args = render (map (λ a, (" ", a)) args).
Proof.
  induction args as [|a args IH]; [reflexivity|].
  cbn [arguments_text map render]. rewrite IH. reflexivity.
Qed.

Lemma spaced_segments_quote_free (args : list string) :
  Forall quote_free args →
  segments_quote_free (map (λ a, (" ", a)) args).
Proof.
  induction 1 as [|a args Ha Hargs IH]; [constructor|].
  constructor; [|exact IH]. split; [repeat split|exact Ha].
Qed.

Lemma rstrip_last_nonspace (s : string) (c : ascii) :
  char_isspace c = false →
  rstrip (s +:+ String c EmptyString) = s +:+ String c EmptyString.
Proof.
  intros Hc. rewrite rstrip_append. cbn [rstrip]. rewrite Hc. reflexivity.
Qed.

Lemma rstrip_arguments_text (args : list string) :
  rstrip (arguments_text args) = arguments_text args.
Proof.
  induction args as [|a args IH]; [reflexivity|].
  cbn [arguments_text]. rewrite <- append_assoc, rstrip_append, IH.
  destruct (arguments_text args) as [|c r]; [|reflexivity].
  rewrite append_nil_r. unfold quoted.
  rewrite <- append_cons, <- append_assoc.
  apply rstrip_last_nonspace. reflexivity.
Qed.

Lemma rstrip_quoted_arguments (a : string) (args : list string) :
  rstrip (quoted a +:+ arguments_text args) = quoted a +:+ arguments_text args.
Proof.
  rewrite rstrip_append, rstrip_arguments_text.
  destruct (arguments_text args) as [|c r]; [|reflexivity].
  rewrite append_nil_r. unfold quoted. rewrite <- append_cons.
  apply rstrip_last_nonspace. reflexivity.
Qed.

(** A command line is already trimmed, and what follows the phrase,
    trimmed, is the quoted arguments without the first space. *)
Lemma strip_command_line (cmd : string) (args : list string) :
  cmd ∈ keys → strip (command_line cmd args) = command_line cmd args.
Proof.
  intros Hc. unfold strip, command_line. apply keys_elem in Hc.
  repeat (destruct Hc as [->|Hc];
          [rewrite lstrip_head by reflexivity;
           rewrite rstrip_keeps_head by reflexivity;
           rewrite rstrip_arguments_text; reflexivity|]).
  subst cmd. rewrite lstrip_head by reflexivity.
  rewrite rstrip_keeps_head by reflexivity.
  rewrite rstrip_arguments_text. reflexivity.
Qed.

Lemma strip_arguments_text (args : list string) :
  ∃ segs, strip (arguments_text args) = render segs +:+ EmptyString
          ∧ map snd segs = args
          ∧ (Forall quote_free args → segments_quote_free segs).
Proof.
  destruct args as [|a args].
  - exists []. repeat split. constructor.
  - exists ((EmptyString, a) :: map (λ a, (" ", a)) args).
    split; [|split].
    + unfold strip. cbn [arguments_text].
      change (lstrip (" " +:+ quoted a +:+ arguments_text args))
        with (quoted a +:+ arguments_text args).
      rewrite rstrip_quoted_arguments. cbn [render].
      rewrite append_nil_l, append_nil_r, arguments_text_render.
      reflexivity.
    + cbn [map snd]. f_equal. rewrite map_map. cbn. apply map_id.
    + intros Hall. apply Forall_cons in Hall as [Ha Hargs].
      constructor; [split; [exact I|exact Ha]|].
      apply spaced_segments_quote_free, Hargs.
Qed.

(** On a command line, the phrase that is matched is the phrase of the
    line: no longer phrase fits the space and the quote that follow it. *)
Lemma command_line_phrase (cmd cmd' : string) (args : list string) :
  cmd ∈ keys → cmd' ∈ keys →
  startswith (lower (command_line cmd args)) cmd' = true →
  String.length cmd ≤ String.length cmd' → cmd' = cmd.
Proof.
  intros Hc Hc' Hstart Hlen. unfold command_line in Hstart.
  rewrite lower_append in Hstart.
  assert (lower (arguments_text args) = EmptyString
          ∨ ∃ x, lower (arguments_text args) = String " " (String dquote x))
    as Hargs.
  { destruct args as [|a args]; [left; reflexivity|].
    right. cbn [arguments_text]. unfold quoted.
    rewrite !append_cons, append_nil_l. cbn [lower]. eexists. reflexivity. }
  apply keys_elem in Hc, Hc'.
  destruct Hargs as [Ha|[x Ha]]; rewrite Ha in Hstart; clear Ha;
    repeat (destruct Hc as [->|Hc]);
    try subst cmd;
    repeat (destruct Hc' as [->|Hc']);
    try subst cmd';
    first [reflexivity
          | exfalso; cbn in Hlen; lia
          | exfalso; vm_compute in Hstart; discriminate Hstart].
Qed.

(** The tokens of a command line. *)
Lemma run_command_line (cmd : string) (args : list string) :
  cmd ∈ keys → Forall quote_free args →
  ∃ segs,
    run (command_line cmd args)
    = mkToken COMMAND cmd 0
      :: literal_tokens (String.length cmd) 0 segs
      ++ [mkToken EOF "" (String.length cmd)]
    ∧ map snd segs = args.
Proof.
  intros Hc Hargs.
  assert (startswith (lower (strip (command_line cmd args))) cmd = true)
    as Hstart by (apply phrase_prefix_kept, Hc).
  destruct (run_command_found _ cmd Hc Hstart)
    as (cmd' & Hrun & Hin & Hm & Hlong).
  rewrite strip_command_line in Hrun, Hm by exact Hc.
  assert (cmd' = cmd) as ->.
  { apply (command_line_phrase cmd cmd' args Hc Hin Hm).
    apply Hlong; [exact Hc|].
    rewrite strip_command_line by exact Hc.
    rewrite strip_command_line in Hstart by exact Hc. exact Hstart. }
  destruct (strip_arguments_text args) as (segs & Hsegs & Hval & Hfree).
  exists segs. split; [|exact Hval].
  rewrite Hrun. unfold literals_after, command_line.
  rewrite str_drop_append. cbv zeta. rewrite Hsegs.
  rewrite (literal_loop_complete _ segs EmptyString (Hfree Hargs) I).
  reflexivity.
Qed.
End Complete.

(** X15: when the text that follows the command phrase has all its quotes
    closed, every quoted segment becomes a StringLiteral token, in order,
    with the text between its quotes as value, original case kept, and
    the position of its opening quote in that text added to the length of
    the phrase; the End token closes the sequence. *)
Theorem closed_quotes_all_extracted (text : string) (tok : Token)
    (self : CosmeticsTokenizer.t) (segs : list (string * string))
    (g : string) :
  CosmeticsTokenizer._match_command (CosmeticsTokenizer.init text)
  = (Some tok, self) →
  strip (str_drop (CosmeticsTokenizer.position self)
                  (CosmeticsTokenizer.input self))
  = render segs +:+ g →
  segments_quote_free segs → quote_free g →
  CosmeticsTokenizer.run text
  = tok :: literal_tokens (CosmeticsTokenizer.position self) 0 segs
        ++ [mkToken EOF "" (CosmeticsTokenizer.position self)]
  ∧ map value (literal_tokens (CosmeticsTokenizer.position self) 0 segs)
    = map snd segs.
Proof.
  intros Hcmd Hrem Hsegs Hg. split; [|apply literal_tokens_values].
  rewrite run_unfold.
  unfold CosmeticsTokenizer._match_command, CosmeticsTokenizer.init in Hcmd.
  cbn [CosmeticsTokenizer.input] in Hcmd. rewrite Hcmd. cbv zeta.
  rewrite Hrem.
  rewrite (literal_loop_complete _ segs g Hsegs Hg).
  reflexivity.
Qed.

(** Two literals with text between and after them. *)
Lemma closed_quotes_all_extracted_witness :
  CosmeticsTokenizer.run
    ("color palette " +:+ quoted "Neon Blue" +:+ " and " +:+ quoted ""
     +:+ " please")
  = [ mkToken COMMAND "color palette" 0;
      mkToken STRING_LITERAL "Neon Blue" 13;
      mkToken STRING_LITERAL "" 29;
      mkToken EOF "" 13 ].
Proof.
  apply (proj1 (closed_quotes_all_extracted
    ("color palette " +:+ quoted "Neon Blue" +:+ " and " +:+ quoted ""
     +:+ " please")
    (mkToken COMMAND "color palette" 0)
    (CosmeticsTokenizer.mk
       ("color palette " +:+ quoted "Neon Blue" +:+ " and " +:+ quoted ""
        +:+ " please") [] 13)
    [("", "Neon Blue"); (" and ", "")] " please"
    eq_refl eq_refl
    ltac:(repeat constructor) ltac:(repeat constructor))).
Defined.

(** X16: a command line read back.  The line made of a phrase of the
    arity table and of arguments without a double quote, each between
    quotes after one space, is tokenized and parsed to the record of that
    phrase and those arguments, unchanged and in order, exactly when their
    number is within the bound of the phrase; otherwise [parse] raises the
    [ParseError] of the arity check, with the phrase, the bound and the
    number given. *)
Theorem command_line_round_trip (cmd : string) (args : list string)
    (min_a max_a : nat) :
  CosmeticsParser.rule_of CosmeticsParser.COMMAND_RULES cmd
  = Some (min_a, max_a) →
  Forall quote_free args →
  (min_a ≤ length args ≤ max_a →
   CosmeticsParser.parse (CosmeticsTokenizer.run (command_line cmd args))
   = Return (mkAST cmd args))
  ∧ (¬ min_a ≤ length args ≤ max_a →
     CosmeticsParser.parse (CosmeticsTokenizer.run (command_line cmd args))
     = Raise (ParseError (WrongArity cmd min_a max_a (length args)))).
Proof.
  intros Hrule Hargs.
  assert (cmd ∈ CosmeticsTokenizer.keys) as Hc.
  { apply rule_of_Some_inv in Hrule.
    unfold CosmeticsParser.COMMAND_RULES in Hrule.
    rewrite !elem_of_cons, elem_of_nil in Hrule.
    apply keys_elem.
    repeat (destruct Hrule as [Hrule|Hrule];
            [injection Hrule as -> _; auto 20|]).
    contradiction. }
  destruct (run_command_line cmd args Hc Hargs) as (segs & -> & Hval).
  unfold CosmeticsParser.parse. cbn [type value].
  rewrite Hrule, collect_args_literal_tokens, Hval.
  cbn [CosmeticsParser.collect_args type]. rewrite app_nil_r.
  destruct (Nat.leb_spec min_a (length args)) as [H1|H1];
    destruct (Nat.leb_spec (length args) max_a) as [H2|H2]; cbn [andb];
    (split; intros H; try reflexivity; lia).
Qed.

(** A list of three items, one with a space and capitals. *)
Lemma command_line_round_trip_witness :
  CosmeticsParser.parse
    (CosmeticsTokenizer.run
       (command_line "add item list" ["jacket"; "Combat Boots"; "gloves"]))
  = Return (mkAST "add item list" ["jacket"; "Combat Boots"; "gloves"]).
Proof.
  apply (proj1 (command_line_round_trip "add item list"
                  ["jacket"; "Combat Boots"; "gloves"] 1 99 eq_refl
                  ltac:(repeat constructor))).
  cbn. lia.
Defined.

(** ** Case *)

Lemma char_isspace_lower (c : ascii) :
  char_isspace (char_lower c) = char_isspace c.
Proof. destruct c as [[] [] [] [] [] [] [] []]; reflexivity. Qed.

Lemma is_quote_lower (c : ascii) : is_quote (char_lower c) = is_quote c.
Proof. destruct c as [[] [] [] [] [] [] [] []]; reflexivity. Qed.

Lemma lstrip_lower (s : string) : lstrip (lower s) = lower (lstrip s).
Proof.
  induction s as [|c s IH]; [reflexivity|].
  cbn [lower lstrip]. rewrite char_isspace_lower.
  destruct (char_isspace c); [exact IH|reflexivity].
Qed.

Lemma rstrip_lower (s : string) : rstrip (lower s) = lower (rstrip s).
Proof.
  induction s as [|c s IH]; [reflexivity|].
  cbn [lower rstrip]. rewrite IH, char_isspace_lower.
  destruct (rstrip s) as [|d r]; cbn [lower]; [|reflexivity].
  destruct (char_isspace c); reflexivity.
Qed.

Lemma strip_lower (s : string) : strip (lower s) = lower (strip s).
Proof. unfold strip. rewrite lstrip_lower, rstrip_lower. reflexivity. Qed.

Lemma str_drop_lower (n : nat) (s : string) :
  str_drop n (lower s) = lower (str_drop n s).
Proof.
  revert s. induction n as [|n IH]; intros s; [reflexivity|].
  destruct s as [|c s]; [reflexivity|]. cbn [lower str_drop]. apply IH.
Qed.

Lemma str_take_lower (n : nat) (s : string) :
  str_take n (lower s) = lower (str_take n s).
Proof.
  revert s. induction n as [|n IH]; intros s; [destruct s; reflexivity|].
  destruct s as [|c s]; [reflexivity|].
  cbn [lower str_take]. rewrite IH. reflexivity.
Qed.

Lemma slice_lower (a b : nat) (s : string) :
  slice a b (lower s) = lower (slice a b s).
Proof. unfold slice. rewrite str_drop_lower, str_take_lower. reflexivity. Qed.

Section Case.
Import CosmeticsTokenizer.

Lemma closing_loop_lower (emit emit' : nat → Token)
    (continue_at continue_at' : string → nat → list Token) (n : nat) :
  (∀ j, emit' j = lower_token (emit j)) →
  (∀ r j, String.length r < n →
          continue_at' (lower r) j = map lower_token (continue_at r j)) →
  ∀ r j, String.length r ≤ n →
         closing_loop emit' continue_at' (lower r) j
         = map lower_token (closing_loop emit continue_at r j).
Proof.
  intros Hemit Hcont. induction r as [|d r IH]; intros j Hlen; [reflexivity|].
  cbn [closing_loop lower String.length] in *. rewrite is_quote_lower.
  destruct (is_quote d).
  - cbn [map]. rewrite Hemit, Hcont by lia. reflexivity.
  - apply IH. lia.
Qed.

Lemma literal_loop_lower (base : nat) (text rest : string) (i : nat) :
  literal_loop base (lower text) (lower rest) i
  = map lower_token (literal_loop base text rest i).
Proof.
  remember (String.length rest) as n eqn:Hn.
  assert (String.length rest ≤ n) as Hle by lia. clear Hn.
  revert rest i Hle. induction n as [|n IH]; intros rest i Hle.
  - destruct rest; [reflexivity|cbn in Hle; lia].
  - destruct rest as [|c rest]; [reflexivity|].
    cbn [literal_loop lower String.length] in *. rewrite is_quote_lower.
    destruct (is_quote c).
    + apply (closing_loop_lower _ _ _ _ n); [| |lia].
      * intros j. unfold lower_token. cbn [type value position].
        rewrite slice_lower. reflexivity.
      * intros r j Hr. apply IH. lia.
    + apply IH. lia.
Qed.

(** [match_loop] reads the text it is given, not the input of the
    tokenizer, which it hands on. *)
Lemma match_loop_input (self1 self2 : t) (text : string) (cmds : list string) :
  tokens self1 = tokens self2 → position self1 = position self2 →
  fst (match_loop self1 text cmds) = fst (match_loop self2 text cmds)
  ∧ position (snd (match_loop self1 text cmds))
    = position (snd (match_loop self2 text cmds))
  ∧ input (snd (match_loop self1 text cmds)) = input self1.
Proof.
  intros Htok Hpos. induction cmds as [|c cmds IH]; cbn [match_loop].
  - repeat split. exact Hpos.
  - destruct (startswith text c); [repeat split|exact IH].
Qed.

Lemma lower_key (c : string) : c ∈ keys → lower c = c.
Proof.
  intros Hc. apply keys_elem in Hc.
  repeat (destruct Hc as [->|Hc]; [reflexivity|]). subst c. reflexivity.
Qed.

(** On the texts of this development, whose characters lower-case one to
    one, the tokens of a lower-cased line are those of the line with the
    values lower-cased. *)
Lemma run_lower (text : string) :
  run (lower text) = map lower_token (run text).
Proof.
  rewrite !run_unfold, strip_lower, lower_idemp.
  destruct (match_loop_input (mk (lower (strip text)) [] 0)
              (mk (strip text) [] 0) (lower (strip text))
              (sorted_by_len_desc keys) eq_refl eq_refl) as (Hfst & Hpos & Hin).
  destruct (match_loop (mk (strip text) [] 0) _ _) as [[tok|] self] eqn:Hloop.
  - apply match_loop_longest in Hloop as (Htok & -> & Hkey & _);
      [|apply sorted_by_len_desc_sorted].
    apply (proj1 (sorted_by_len_desc_elem _ _)) in Hkey.
    destruct (match_loop (mk (lower (strip text)) [] 0) _ _) as [o self'].
    cbn [fst snd position input] in *. subst o. rewrite Hpos, Hin.
    cbv zeta. rewrite str_drop_lower, strip_lower, literal_loop_lower.
    cbn [map]. rewrite map_app. cbn [map].
    f_equal.
    rewrite Htok. unfold lower_token. cbn [type value position].
    rewrite (lower_key _ Hkey). reflexivity.
  - destruct (match_loop (mk (lower (strip text)) [] 0) _ _) as [o self'].
    cbn [fst snd position] in *. subst o. rewrite Hpos.
    destruct (match_loop_first (mk (strip text) [] 0) (lower (strip text))
                (sorted_by_len_desc keys))
      as [[_ Hnone]|(before & cmd & after & _ & _ & _ & Hr)];
      [|rewrite Hr in Hloop; discriminate].
    rewrite Hnone in Hloop. injection Hloop as <-. reflexivity.
Qed.
End Case.

(** ** The parser behind the tokenizer *)

Section Pipeline.
Import CosmeticsParser.

(** Every phrase of the vocabulary has a rule. *)
Lemma key_has_rule (c : string) :
  c ∈ CosmeticsTokenizer.keys → ∃ b, rule_of COMMAND_RULES c = Some b.
Proof.
  intros Hc. apply keys_elem in Hc.
  repeat (destruct Hc as [->|Hc]; [eexists; reflexivity|]).
  subst c. eexists; reflexivity.
Qed.

(** Some phrase is a prefix of the trimmed, lower-cased text, or none. *)
Lemma phrase_or_none (text : string) :
  (∀ c, c ∈ CosmeticsTokenizer.keys → startswith (lower (strip text)) c = false)
  ∨ ∃ c, c ∈ CosmeticsTokenizer.keys ∧ startswith (lower (strip text)) c = true.
Proof.
  destruct (match_loop_first (CosmeticsTokenizer.mk (strip text) [] 0)
              (lower (strip text))
              (sorted_by_len_desc CosmeticsTokenizer.keys))
    as [[Hall _]|(before & cmd & after & Heq & _ & Hm & _)].
  - left. intros c Hc. apply sorted_by_len_desc_elem in Hc.
    exact (proj1 (Forall_forall _ _) Hall c Hc).
  - right. exists cmd. split; [|exact Hm].
    apply sorted_by_len_desc_elem. rewrite Heq.
    apply elem_of_app. right. constructor.
Qed.

(** What [parse] makes of a token sequence that starts with the Command
    token of a phrase of the vocabulary. *)
Lemma parse_command_tokens (cmd : string) (rest : list Token) :
  cmd ∈ CosmeticsTokenizer.keys →
  ∃ min_a max_a,
    rule_of COMMAND_RULES cmd = Some (min_a, max_a)
    ∧ parse (mkToken COMMAND cmd 0 :: rest)
      = if Nat.leb min_a (length (collect_args rest))
           && Nat.leb (length (collect_args rest)) max_a
        then Return (mkAST cmd (collect_args rest))
        else Raise (ParseError (WrongArity cmd min_a max_a
                                  (length (collect_args rest)))).
Proof.
  intros Hc. destruct (key_has_rule cmd Hc) as [[min_a max_a] Hrule].
  exists min_a, max_a. split; [exact Hrule|].
  unfold parse. cbn [type value]. rewrite Hrule. reflexivity.
Qed.

(** The outcomes of [parse] on the tokens of a text. *)
Lemma parse_run_cases (text : string) :
  ((∀ c, c ∈ CosmeticsTokenizer.keys →
         startswith (lower (strip text)) c = false)
   ∧ parse (CosmeticsTokenizer.run text) = Raise (ParseError ExpectedCommand))
  ∨ (∃ cmd, cmd ∈ CosmeticsTokenizer.keys
       ∧ startswith (lower (strip text)) cmd = true
       ∧ ((∃ args, parse (CosmeticsTokenizer.run text)
                   = Return (mkAST cmd args))
          ∨ (∃ min_a max_a got,
               rule_of COMMAND_RULES cmd = Some (min_a, max_a)
               ∧ ¬ min_a ≤ got ≤ max_a
               ∧ parse (CosmeticsTokenizer.run text)
                 = Raise (ParseError (WrongArity cmd min_a max_a got))))).
Proof.
  destruct (phrase_or_none text) as [Hnone|(c & Hc & Hstart)].
  - left. split; [exact Hnone|]. rewrite (run_no_command text Hnone).
    reflexivity.
  - right. destruct (run_command_found text c Hc Hstart)
      as (cmd & -> & Hin & Hm & _).
    exists cmd. split; [exact Hin|]. split; [exact Hm|].
    destruct (parse_command_tokens cmd
                (literals_after (String.length cmd) (strip text)
                 ++ [mkToken EOF "" (String.length cmd)]) Hin)
      as (min_a & max_a & Hrule & ->).
    destruct (Nat.leb_spec min_a (length (collect_args
      (literals_after (String.length cmd) (strip text)
       ++ [mkToken EOF "" (String.length cmd)])))) as [H1|H1];
    destruct (Nat.leb_spec (length (collect_args
      (literals_after (String.length cmd) (strip text)
       ++ [mkToken EOF "" (String.length cmd)]))) max_a) as [H2|H2];
    cbn [andb];
    first [left; eexists; reflexivity
          | right; eexists _, _, _; split; [exact Hrule|];
            split; [|reflexivity]; lia].
Qed.

(** [collect_args] stops at the first token that is not a literal. *)
Lemma collect_args_stop (lits : list (string * nat)) (rest : list Token) :
  match rest with
  | [] => True
  | stop :: _ => type stop ≠ STRING_LITERAL
  end →
  collect_args (map literal_token lits ++ rest) = map fst lits.
Proof.
  intros Hstop. rewrite collect_args_literals.
  destruct rest as [|stop rest]; cbn [collect_args]; [apply app_nil_r|].
  destruct (type stop); try apply app_nil_r. contradiction.
Qed.
End Pipeline.

(** X18: the parser behind the tokenizer.  For every text, [parse] on the
    tokens of [tokenize] raises the [ParseError] of a missing command
    exactly when no phrase of the vocabulary is a prefix of the trimmed,
    lower-cased text; it never raises the [ParseError] of an unknown
    command; and the record it returns, if any, has a phrase of the
    vocabulary as command. *)
Theorem parse_after_tokenize (text : string) :
  ((∀ c, c ∈ CosmeticsTokenizer.keys →
         startswith (lower (strip text)) c = false)
   ↔ CosmeticsParser.parse (CosmeticsTokenizer.run text)
     = Raise (ParseError ExpectedCommand))
  ∧ (∀ cmd, CosmeticsParser.parse (CosmeticsTokenizer.run text)
            ≠ Raise (ParseError (UnknownCommandPhrase cmd)))
  ∧ (∀ ast, CosmeticsParser.parse (CosmeticsTokenizer.run text) = Return ast →
            command ast ∈ CosmeticsTokenizer.keys).
Proof.
  destruct (parse_run_cases text)
    as [[Hnone ->]|(cmd & Hin & Hm & [[args ->]|(mn & mx & got & _ & _ & ->)])].
  - split; [tauto|]. split; [discriminate|discriminate].
  - split; [|split].
    + split; [|discriminate]. intros Hnone. rewrite (Hnone cmd Hin) in Hm.
      discriminate.
    + discriminate.
    + intros ast [= <-]. exact Hin.
  - split; [|split].
    + split; [|discriminate]. intros Hnone. rewrite (Hnone cmd Hin) in Hm.
      discriminate.
    + discriminate.
    + discriminate.
Qed.

(** X19: [parse] reads the Command token and the literals right after it,
    and nothing else.  Whatever follows the first token that is not a
    literal, or when nothing follows the literals, not even an End token,
    the outcome is that of the arity check on those literals. *)
Theorem parse_reads_leading_literals (c : string) (min_a max_a : nat)
    (lits : list (string * nat)) (p0 : nat) (rest : list Token) :
  CosmeticsParser.rule_of CosmeticsParser.COMMAND_RULES c = Some (min_a, max_a) →
  match rest with
  | [] => True
  | stop :: _ => type stop ≠ STRING_LITERAL
  end →
  CosmeticsParser.parse (mkToken COMMAND c p0 :: map literal_token lits ++ rest)
  = if Nat.leb min_a (length lits) && Nat.leb (length lits) max_a
    then Return (mkAST c (map fst lits))
    else Raise (ParseError (WrongArity c min_a max_a (length lits))).
Proof.
  intros Hrule Hstop. unfold CosmeticsParser.parse. cbn [type value].
  rewrite Hrule, (collect_args_stop lits rest Hstop), length_map.
  reflexivity.
Qed.

(** A second command after the argument is not read. *)
Lemma parse_reads_leading_literals_witness :
  CosmeticsParser.parse
    [ mkToken COMMAND "add item" 0;
      mkToken STRING_LITERAL "jacket" 9;
      mkToken COMMAND "exit" 18;
      mkToken STRING_LITERAL "boots" 23 ]
  = Return (mkAST "add item" ["jacket"]).
Proof.
  apply (parse_reads_leading_literals "add item" 1 1 [("jacket", 9)] 0
           [mkToken COMMAND "exit" 18; mkToken STRING_LITERAL "boots" 23]
           eq_refl).
  discriminate.
Defined.

Section Runner.
Import CosmeticsExecutor.

(** What the command runner can raise, and that nothing was written. *)
Lemma run_command_Raise_inv (text : string) (self self' : t) (e : Exception) :
  run_command text self = (Raise e, self') →
  self' = self
  ∧ (e = ParseError ExpectedCommand
     ∨ (∃ cmd min_a max_a got,
          CosmeticsParser.rule_of CosmeticsParser.COMMAND_RULES cmd
          = Some (min_a, max_a)
          ∧ ¬ min_a ≤ got ≤ max_a
          ∧ e = ParseError (WrongArity cmd min_a max_a got))
     ∨ (∃ cmd, cmd ∈ undispatched ∧ e = ExecutionError cmd)).
Proof.
  unfold run_command. cbv zeta.
  destruct (parse_run_cases text)
    as [[_ ->]|(cmd & Hin & _ & [[args Hp]|(mn & mx & got & Hr & Hk & ->)])].
  - unfold raise. intros [= <- <-]. split; [reflexivity|]. left. reflexivity.
  - rewrite Hp. intros Hexec.
    destruct (parse_Return_inv _ _ Hp) as (mn & mx & Hrule & Hk).
    apply rule_of_Some_inv in Hrule. cbn [command arguments] in *.
    destruct (execute_validated_cases cmd args mn mx self Hrule Hk)
      as [[Hun Hraise]|[_ Hret]].
    + rewrite Hraise in Hexec. injection Hexec as <- <-.
      split; [reflexivity|]. right. right. exists cmd. split; [exact Hun|reflexivity].
    + destruct (returns_not_Raise _ _ _ _ Hret Hexec).
  - unfold raise. intros [= <- <-]. split; [reflexivity|]. right. left.
    exists cmd, mn, mx, got. repeat split; assumption.
Qed.
End Runner.

(** X20: a command line that fails changes nothing.  When the command
    runner raises, the executor is as it was, and what is raised is the
    [ParseError] of a missing command, the [ParseError] of an argument
    count outside the bound of the phrase, or the [ExecutionError] of
    [register], [login], [logout] or [exit]: never the [IndexError] of a
    missing first argument, never the [ParseError] of an unknown
    command. *)
Theorem run_command_fails_cleanly (text : string)
    (self self' : CosmeticsExecutor.t) (e : Exception) :
  run_command text self = (Raise e, self') →
  self' = self
  ∧ (e = ParseError ExpectedCommand
     ∨ (∃ cmd min_a max_a got,
          CosmeticsParser.rule_of CosmeticsParser.COMMAND_RULES cmd
          = Some (min_a, max_a)
          ∧ ¬ min_a ≤ got ≤ max_a
          ∧ e = ParseError (WrongArity cmd min_a max_a got))
     ∨ (∃ cmd, cmd ∈ undispatched ∧ e = ExecutionError cmd)).
Proof. apply run_command_Raise_inv. Qed.

(** [add item] with two arguments, on the executor of the scenarios. *)
Lemma run_command_fails_cleanly_witness :
  run_command ("add item " +:+ quoted "hat" +:+ " " +:+ quoted "scarf")
    scenario_executor
  = (Raise (ParseError (WrongArity "add item" 1 1 2)), scenario_executor)
  ∧ scenario_executor = scenario_executor.
Proof.
  split; [reflexivity|].
  apply (run_command_fails_cleanly
           ("add item " +:+ quoted "hat" +:+ " " +:+ quoted "scarf")
           scenario_executor scenario_executor
           (ParseError (WrongArity "add item" 1 1 2))).
  reflexivity.
Defined.

(** * Properties of the helpers of the interface *)

(** ** The palette field *)

Lemma lstrip_headed (s : string) :
  match lstrip s with
  | EmptyString => True
  | String c _ => char_isspace c = false
  end.
Proof.
  induction s as [|c s IH]; [exact I|]. cbn [lstrip].
  destruct (char_isspace c) eqn:Hc; [exact IH|exact Hc].
Qed.

Lemma lstrip_fixed (s : string) :
  match s with
  | EmptyString => True
  | String c _ => char_isspace c = false
  end → lstrip s = s.
Proof. destruct s as [|c s]; [reflexivity|]. cbn [lstrip]. intros ->. reflexivity. Qed.

Lemma rstrip_keeps_first (s : string) :
  match s with
  | EmptyString => True
  | String c _ => char_isspace c = false
  end →
  match rstrip s with
  | EmptyString => True
  | String c _ => char_isspace c = false
  end.
Proof.
  destruct s as [|c s]; [intros _; exact I|]. cbn [rstrip]. intros Hc.
  destruct (rstrip s); [rewrite Hc|]; exact Hc.
Qed.

Lemma rstrip_idemp (s : string) : rstrip (rstrip s) = rstrip s.
Proof.
  induction s as [|c s IH]; [reflexivity|]. cbn [rstrip].
  destruct (rstrip s) as [|d r] eqn:Hr.
  - destruct (char_isspace c) eqn:Hc; [reflexivity|].
    cbn [rstrip]. rewrite Hc. reflexivity.
  - cbn [rstrip]. cbn [rstrip] in IH. rewrite IH. reflexivity.
Qed.

Lemma strip_idemp (s : string) : strip (strip s) = strip s.
Proof.
  unfold strip.
  rewrite (lstrip_fixed (rstrip (lstrip s)))
    by apply rstrip_keeps_first, lstrip_headed.
  apply rstrip_idemp.
Qed.

Lemma lstrip_comma_free (s : string) : comma_free s → comma_free (lstrip s).
Proof.
  induction s as [|c s IH]; [intros _; exact I|]. intros [Hc Hs].
  cbn [lstrip]. destruct (char_isspace c); [apply IH, Hs|split; assumption].
Qed.

Lemma rstrip_comma_free (s : string) : comma_free s → comma_free (rstrip s).
Proof.
  induction s as [|c s IH]; [intros _; exact I|]. intros [Hc Hs].
  cbn [rstrip]. specialize (IH Hs). destruct (rstrip s) as [|d r].
  - destruct (char_isspace c); [exact I|split; [exact Hc|exact I]].
  - split; assumption.
Qed.

Lemma split_comma_pieces (s : string) : Forall comma_free (split_comma s).
Proof.
  induction s as [|c s IH]; [repeat constructor|]. cbn [split_comma].
  destruct (is_comma c) eqn:Hc; [constructor; [exact I|exact IH]|].
  destruct (split_comma s) as [|piece pieces]; [repeat constructor; exact Hc|].
  apply Forall_cons in IH as [Hp Hps].
  constructor; [split; assumption|exact Hps].
Qed.

Lemma split_comma_no_comma (s : string) : comma_free s → split_comma s = [s].
Proof.
  induction s as [|c s IH]; [reflexivity|]. intros [Hc Hs].
  cbn [split_comma]. rewrite Hc, (IH Hs). reflexivity.
Qed.

Lemma split_comma_append (a b : string) :
  comma_free a →
  split_comma (a +:+ String (ascii_of_nat 44) b) = a :: split_comma b.
Proof.
  induction a as [|c a IH]; [reflexivity|]. intros [Hc Ha].
  rewrite append_cons. cbn [split_comma]. rewrite Hc, (IH Ha). reflexivity.
Qed.

Lemma all_space_comma_free (s : string) : all_space s → comma_free s.
Proof.
  induction s as [|c s IH]; [intros _; exact I|]. intros [Hc Hs].
  split; [|apply IH, Hs].
  revert Hc. clear. destruct c as [[] [] [] [] [] [] [] []]; vm_compute;
    intros H; (reflexivity || discriminate H).
Qed.

Lemma palette_colors_clean (palette : string) :
  Forall clean_colour (palette_colors palette).
Proof.
  unfold palette_colors.
  pose proof (split_comma_pieces palette) as Hpieces.
  induction Hpieces as [|piece pieces Hp Hps IH]; [constructor|].
  destruct (decide (str_truthy (strip piece) = true)) as [Ht|Ht].
  - rewrite (filter_cons_True (λ c, str_truthy (strip c) = true)
               piece pieces Ht).
    cbn [map].
    constructor; [|exact IH]. split; [|split].
    + intros Hem. rewrite Hem in Ht. discriminate.
    + apply strip_idemp.
    + apply rstrip_comma_free, lstrip_comma_free, Hp.
  - rewrite (filter_cons_False (λ c, str_truthy (strip c) = true)
               piece pieces Ht).
    exact IH.
Qed.

(** The pieces of a joined list: the first colour, and each other one
    after a space. *)
Lemma split_comma_joined (c : string) (cs : list string) :
  Forall comma_free (c :: cs) →
  split_comma (comma_joined (c :: cs)) = c :: map (String " ") cs.
Proof.
  revert c. induction cs as [|c' cs IH]; intros c Hall.
  - apply Forall_cons in Hall as [Hc _]. apply split_comma_no_comma, Hc.
  - apply Forall_cons in Hall as [Hc Hrest].
    change (comma_joined (c :: c' :: cs))
      with (c +:+ String (ascii_of_nat 44)
                    (String " " (comma_joined (c' :: cs)))).
    rewrite (split_comma_append _ _ Hc). f_equal.
    cbn [split_comma]. change (is_comma " ") with false. cbv iota.
    rewrite (IH c' Hrest). reflexivity.
Qed.

Lemma palette_colors_of_pieces (cs : list string) :
  Forall clean_colour cs →
  map strip (filter (λ c, str_truthy (strip c) = true) (map (String " ") cs))
  = cs.
Proof.
  induction 1 as [|c cs (Hne & Hs & _) Hcs IH]; [reflexivity|].
  cbn [map].
  assert (strip (String " " c) = c) as Hsp by exact Hs.
  assert (str_truthy (strip (String " " c)) = true) as Ht
    by (rewrite Hsp; destruct c; [contradiction|reflexivity]).
  rewrite (filter_cons_True (λ c, str_truthy (strip c) = true) _ _ Ht).
  cbn [map]. rewrite Hsp, IH. reflexivity.
Qed.


(** X21: every colour the palette field hands to [_set_color_palette] is
    not empty, is trimmed and holds no comma, so the palette it sets never
    has an empty entry; and a field left blank yields no colour at all,
    which empties the palette. *)
Theorem palette_field_colours (palette : string) :
  Forall clean_colour (palette_colors palette)
  ∧ (all_space palette → palette_colors palette = [])
  ∧ (all_space palette → ∀ self,
       CosmeticsExecutor.palette
         (snd (CosmeticsExecutor._set_color_palette (palette_colors palette)
                 self)) = []).
Proof.
  split; [apply palette_colors_clean|].
  assert (all_space palette → palette_colors palette = []) as Hblank.
  { intros Hsp. unfold palette_colors.
    rewrite (split_comma_no_comma _ (all_space_comma_free _ Hsp)).
    rewrite filter_cons_False; [reflexivity|].
    unfold strip. rewrite (lstrip_all_space _ Hsp). discriminate. }
  split; [exact Hblank|]. intros Hsp self. rewrite (Hblank Hsp). reflexivity.
Qed.

(** X22: the palette field read back.  Colours that are not empty, are
    trimmed and hold no comma, written with a comma and a space between
    two of them, come out of the field as they went in, in order. *)
Theorem palette_field_round_trip (cs : list string) :
  Forall clean_colour cs → palette_colors (comma_joined cs) = cs.
Proof.
  intros Hclean. destruct cs as [|c cs]; [reflexivity|].
  unfold palette_colors. rewrite split_comma_joined.
  - pose proof Hclean as Hall. apply Forall_cons in Hall as [(Hne & Hs & _) Hcs].
    assert (str_truthy (strip c) = true) as Ht
      by (rewrite Hs; destruct c; [contradiction|reflexivity]).
    rewrite (filter_cons_True (λ c, str_truthy (strip c) = true) _ _ Ht).
    cbn [map]. rewrite Hs. f_equal. apply palette_colors_of_pieces, Hcs.
  - eapply Forall_impl; [exact Hclean|]. intros x (_ & _ & Hx). exact Hx.
Qed.

(** The example of the hint of the field. *)
Lemma palette_field_round_trip_witness :
  palette_colors "magenta, neon blue, black"
  = ["magenta"; "neon blue"; "black"].
Proof.
  apply (palette_field_round_trip ["magenta"; "neon blue"; "black"]).
  repeat constructor; discriminate.
Defined.

(** ** The inventory in the store *)

Section Store.
Import CosmeticsExecutor.

Lemma map_lower_lowercased (l : list string) :
  Forall lowercased l → map lower l = l.
Proof.
  induction 1 as [|x l Hx Hl IH]; [reflexivity|].
  cbn [map]. rewrite Hx, IH. reflexivity.
Qed.

Lemma saved_inventory_elements (self : t) (x : string) :
  x ∈ saved_inventory self ↔ x ∈ inventory self.
Proof.
  unfold saved_inventory. rewrite merge_sort_Permutation.
  apply elem_of_elements.
Qed.

Lemma sync_inventory_normalized (inv : list string) (self : t) :
  stored_normalized self → stored_normalized (sync_inventory inv self).
Proof.
  intros (Ht & _ & Hp). split; [exact Ht|]. split; [|exact Hp].
  unfold sync_inventory. cbn [inventory]. intros x Hx.
  apply elem_of_list_to_set in Hx.
  assert (Forall lowercased (map lower inv)) as Hall
    by apply Forall_lowercased_map.
  exact (proj1 (Forall_forall _ _) Hall x Hx).
Qed.
End Store.

(** X23: the inventory saved and read back.  The list handed to the store
    is sorted, has no repetition and holds exactly the entries of the
    inventory; when these are lower-cased, as the commands keep them,
    reading that list back at login gives the executor its inventory
    again. *)
Theorem saved_inventory_round_trip (self : CosmeticsExecutor.t) :
  StronglySorted strings.String.le (saved_inventory self)
  ∧ NoDup (saved_inventory self)
  ∧ (∀ x, x ∈ saved_inventory self ↔ x ∈ CosmeticsExecutor.inventory self)
  ∧ (set_Forall lowercased (CosmeticsExecutor.inventory self) →
     sync_inventory (saved_inventory self) self = self).
Proof.
  split; [apply StronglySorted_merge_sort; apply _|].
  split.
  { unfold saved_inventory. rewrite merge_sort_Permutation.
    apply NoDup_elements. }
  split; [apply saved_inventory_elements|].
  intros Hlow. unfold sync_inventory.
  rewrite map_lower_lowercased.
  - unfold saved_inventory. rewrite merge_sort_Permutation.
    rewrite list_to_set_elements_L. destruct self; reflexivity.
  - apply Forall_forall. intros x Hx. apply Hlow.
    apply saved_inventory_elements, Hx.
Qed.

(** X24: a session seeded from the store.  Whatever list of items the store
    returns at login, in whatever case and with whatever repetitions, and
    whatever commands follow, every entry of the inventory and of the
    palette is lower-cased, and the inventory after the login holds the
    lower-cased items of the list and nothing else. *)
Theorem seeded_session_normalized (lib : list CosmeticOutfit.t)
    (path : string) (before : list ASTNode) (inv : list string)
    (after : list ASTNode) :
  let seeded :=
    sync_inventory inv
      (CosmeticsExecutor.execute_all before (CosmeticsExecutor.init lib path)) in
  let self := CosmeticsExecutor.execute_all after seeded in
  (∀ x, x ∈ CosmeticsExecutor.inventory seeded ↔ ∃ y, y ∈ inv ∧ x = lower y)
  ∧ (∀ x, x ∈ CosmeticsExecutor.inventory self → lower x = x)
  ∧ (∀ c, c ∈ CosmeticsExecutor.palette self → lower c = c)
  ∧ (∀ th, CosmeticsExecutor.theme self = Some th → lower th = th).
Proof.
  intros seeded self. split.
  - intros x. unfold seeded, sync_inventory. cbn [CosmeticsExecutor.inventory].
    rewrite elem_of_list_to_set.
    change (map lower inv) with (lower <$> inv).
    rewrite list_elem_of_fmap. split; intros (y & H1 & H2); exists y; tauto.
  - assert (stored_normalized self) as (Ht & Hi & Hp).
    { apply execute_all_normalized, sync_inventory_normalized,
        execute_all_normalized, init_normalized. }
    split; [exact Hi|]. split; [|exact Ht].
    intros c Hc. exact (proj1 (Forall_forall _ _) Hp c Hc).
Qed.

(** ** The path of an image *)

Lemma replace_blanks_blank_free (s : string) : blank_free (replace_blanks s).
Proof.
  induction s as [|c s IH]; [exact I|]. cbn [replace_blanks].
  split; [|exact IH]. destruct (is_blank c) eqn:Hc; [reflexivity|exact Hc].
Qed.

Lemma replace_blanks_length (s : string) :
  String.length (replace_blanks s) = String.length s.
Proof. induction s as [|c s IH]; cbn; congruence. Qed.

Lemma replace_blanks_slash_free (s : string) :
  slash_free s → slash_free (replace_blanks s).
Proof.
  induction s as [|c s IH]; [intros _; exact I|]. intros [Hc Hs].
  cbn [replace_blanks]. split; [|apply IH, Hs].
  destruct (is_blank c); [reflexivity|exact Hc].
Qed.

Lemma replace_blanks_nil (s : string) :
  replace_blanks s = EmptyString → s = EmptyString.
Proof. destruct s; [reflexivity|discriminate]. Qed.

Lemma slash_free_no_leading_slash (s : string) :
  slash_free s → starts_with_slash s = false.
Proof. destruct s as [|c s]; [reflexivity|]. intros [Hc _]. exact Hc. Qed.

Lemma slash_free_no_trailing_slash (s : string) :
  slash_free s → ends_with_slash s = false.
Proof.
  induction s as [|c s IH]; [reflexivity|]. intros [Hc Hs].
  cbn [ends_with_slash]. destruct s; [exact Hc|apply IH, Hs].
Qed.

Lemma ends_with_slash_append (a : string) (c : ascii) (b : string) :
  ends_with_slash (a +:+ String c b) = ends_with_slash (String c b).
Proof.
  induction a as [|x a IH]; [reflexivity|].
  rewrite append_cons. cbn [ends_with_slash].
  destruct (a +:+ String c b) eqn:Happ; [|exact IH].
  destruct a; discriminate.
Qed.

Lemma str_truthy_append (a : string) (c : ascii) (b : string) :
  str_truthy (a +:+ String c b) = true.
Proof. destruct a; reflexivity. Qed.

Lemma image_path_absolute (o : CosmeticOutfit.t) (base : string) :
  starts_with_slash (CosmeticOutfit.image o) = true →
  image_path_for o base = CosmeticOutfit.image o.
Proof.
  intros Habs. unfold image_path_for, path_join. cbn [fold_left].
  unfold path_join_step at 1. rewrite Habs. reflexivity.
Qed.

Lemma image_path_relative (o : CosmeticOutfit.t) (base : string) :
  starts_with_slash (CosmeticOutfit.image o) = false →
  base ≠ EmptyString → ends_with_slash base = false →
  CosmeticOutfit.theme o ≠ EmptyString → slash_free (CosmeticOutfit.theme o) →
  image_path_for o base
  = (base +:+ String slash (replace_blanks (CosmeticOutfit.theme o)))
    +:+ String slash (CosmeticOutfit.image o).
Proof.
  intros Hrel Hbase Hend Hth Hfree. unfold image_path_for, path_join.
  cbn [fold_left]. cbv zeta.
  assert (path_join_step base (replace_blanks (CosmeticOutfit.theme o))
          = base +:+ String slash (replace_blanks (CosmeticOutfit.theme o)))
    as ->.
  { unfold path_join_step.
    rewrite (slash_free_no_leading_slash _
               (replace_blanks_slash_free _ Hfree)), Hend.
    destruct base; [contradiction|reflexivity]. }
  unfold path_join_step. rewrite Hrel, str_truthy_append.
  destruct (replace_blanks (CosmeticOutfit.theme o)) as [|c r] eqn:Hfolder.
  { apply replace_blanks_nil in Hfolder. contradiction. }
  rewrite ends_with_slash_append.
  change (ends_with_slash (String slash (String c r)))
    with (ends_with_slash (String c r)).
  rewrite slash_free_no_trailing_slash; [reflexivity|].
  rewrite <- Hfolder. apply replace_blanks_slash_free, Hfree.
Qed.

(** X25: the path of an outfit's image, on a POSIX system.  The folder of
    the theme is the theme with every blank turned into an underscore: it
    has the length of the theme and no blank.  For a base directory that is
    not empty and does not end with a slash, a theme that is not empty and
    has no slash, and an image name that does not start with a slash, the
    path is the base, the folder and the image name, a slash between them.
    An image name that starts with a slash is returned as it is: the base
    directory and the theme are dropped. *)
Theorem image_path_for_cases (o : CosmeticOutfit.t) (base : string) :
  blank_free (replace_blanks (CosmeticOutfit.theme o))
  ∧ String.length (replace_blanks (CosmeticOutfit.theme o))
    = String.length (CosmeticOutfit.theme o)
  ∧ (starts_with_slash (CosmeticOutfit.image o) = false →
     base ≠ EmptyString → ends_with_slash base = false →
     CosmeticOutfit.theme o ≠ EmptyString →
     slash_free (CosmeticOutfit.theme o) →
     image_path_for o base
     = (base +:+ String slash (replace_blanks (CosmeticOutfit.theme o)))
       +:+ String slash (CosmeticOutfit.image o))
  ∧ (starts_with_slash (CosmeticOutfit.image o) = true →
     image_path_for o base = CosmeticOutfit.image o).
Proof.
  split; [apply replace_blanks_blank_free|].
  split; [apply replace_blanks_length|].
  split; [apply image_path_relative|apply image_path_absolute].
Qed.

Example image_path_dark_fantasy :
  image_path_for
    (CosmeticOutfit.mk "knight" "dark fantasy" [] [] "knight.png" [])
    "cosmetics_images"
  = "cosmetics_images/dark_fantasy/knight.png".
Proof. reflexivity. Qed.

(** ** Tokenizing again *)

Section Again.
Import CosmeticsTokenizer.

Lemma tokenize_keeps_input (self : t) : input (snd (tokenize self)) = input self.
Proof.
  unfold tokenize, _match_command.
  destruct (match_loop_input (mk (input self) [] 0) (mk (input self) [] 0)
              (lower (input (mk (input self) [] 0)))
              (sorted_by_len_desc keys) eq_refl eq_refl) as (_ & _ & Hin).
  destruct (match_loop (mk (input self) [] 0) _ _) as [[tok|] self'];
    cbn [snd input] in *; exact Hin.
Qed.

Lemma tokenize_reads_input (self : t) :
  tokenize self = tokenize (mk (input self) [] 0).
Proof. reflexivity. Qed.
End Again.

(** X26: [tokenize] can be called again on the same tokenizer.  It starts
    by emptying the token list and resetting the position, and it never
    changes the input, so a second call returns the same tokens and leaves
    the same tokenizer as the first: no token is appended twice. *)
Theorem tokenize_twice (self : CosmeticsTokenizer.t) :
  CosmeticsTokenizer.tokenize (snd (CosmeticsTokenizer.tokenize self))
  = CosmeticsTokenizer.tokenize self.
Proof.
  rewrite (tokenize_reads_input (snd (CosmeticsTokenizer.tokenize self))).
  rewrite tokenize_keeps_input. reflexivity.
Qed.

(** ** The case of the line *)

Lemma lower_token_type (toks : list Token) :
  map type (map lower_token toks) = map type toks.
Proof. rewrite map_map. reflexivity. Qed.

(** The tokens of a text: the End token alone, or the Command token of a
    phrase of the vocabulary, tokens, and the End token. *)
Lemma run_shape (text : string) :
  CosmeticsTokenizer.run text = [mkToken EOF "" 0]
  ∨ ∃ cmd lits,
      cmd ∈ CosmeticsTokenizer.keys
      ∧ CosmeticsTokenizer.run text
        = mkToken COMMAND cmd 0 :: lits ++ [mkToken EOF "" (String.length cmd)].
Proof.
  destruct (phrase_or_none text) as [Hnone|(c & Hc & Hstart)].
  - left. apply run_no_command, Hnone.
  - right. destruct (run_command_found text c Hc Hstart)
      as (cmd & Hrun & Hin & _).
    exists cmd, (literals_after (String.length cmd) (strip text)).
    split; [exact Hin|exact Hrun].
Qed.

(** X17: the command is recognised whatever the case of the line.  A line
    and the same line lower-cased give the same first token (the Command
    token of the same phrase, or the End token when there is none), the
    same End token, and tokens of the same kinds in the same order: the
    same number of string literals between the two. *)
Theorem tokenize_command_ignores_case (text : string) :
  head (CosmeticsTokenizer.run (lower text))
  = head (CosmeticsTokenizer.run text)
  ∧ last (CosmeticsTokenizer.run (lower text))
    = last (CosmeticsTokenizer.run text)
  ∧ map type (CosmeticsTokenizer.run (lower text))
    = map type (CosmeticsTokenizer.run text).
Proof.
  rewrite run_lower. split; [|split; [|apply lower_token_type]].
  - destruct (run_shape text) as [->|(cmd & lits & Hin & ->)]; [reflexivity|].
    cbn [map head]. unfold lower_token. cbn [type value position].
    rewrite (lower_key cmd Hin). reflexivity.
  - destruct (run_shape text) as [->|(cmd & lits & Hin & ->)]; [reflexivity|].
    rewrite app_comm_cons, map_app. cbn [map].
    rewrite !last_snoc. reflexivity.
Qed.

(** A line in capitals and mixed case. *)
Example tokenize_capitals :
  CosmeticsTokenizer.run ("ADD Item LIST " +:+ quoted "Jacket")
  = [ mkToken COMMAND "add item list" 0;
      mkToken STRING_LITERAL "Jacket" 13;
      mkToken EOF "" 13 ].
Proof. reflexivity. Qed.
